(** * frost-ts: a shallow embedding of the FROST/secp256k1 engine

    The TypeScript sources (constants.ts, point.ts, matrix.ts, aggregator.ts,
    participant.ts) are embedded as Rocq functions.  A JavaScript [bigint] is
    a [Z]; the operators keep their JavaScript meaning: [%] is the truncated
    remainder [Z.rem], [/] the truncated quotient [Z.quot], [>>] and [<<] the
    arithmetic shifts, [**] the power.  A [Buffer] is a [list byte].  A method
    that can throw returns a [result]; a method that mutates its object
    returns the new object. *)

From Stdlib Require Import String Ascii.
From Stdlib Require Import ZArith List Lia Bool Znumtheory.
From Stdlib.Strings Require Import Byte.
From Stdlib Require Import Zmod Zstar.
Import ListNotations.
Local Open Scope Z_scope.

(** ** constants.ts *)

Definition P : Z := 2 ^ 256 - 2 ^ 32 - 977.
Definition Q : Z :=
  0xFFFFFFFFFFFFFFFFFFFFFFFFFFFFFFFEBAAEDCE6AF48A03BBFD25E8CD0364141.
Definition GX : Z :=
  0x79BE667EF9DCBBAC55A06295CE870B07029BFCDB2DCE28D959F2815B16F81798.
Definition GY : Z :=
  0x483ADA7726A3C4655DA4FBFC0E1108A8FD17B448A68554199C47D08FFB10D4B8.

(** ** Thrown errors

    One constructor per [throw] site family of the sources. *)

Inductive Error : Set :=
| NoInverse              (* "Modular inverse does not exist" *)
| SerializeInfinity      (* "Cannot serialize (the) point at infinity" *)
| InvalidHexInput        (* secDeserialize / xonlyDeserialize catch-all *)
| InvalidXonlyLength     (* "Invalid hex length: expected 64, got ..." *)
| IndexMustStartFromOne  (* "Participant index must start from 1." *)
| IndexOutOfRange        (* "... index ... is out of range ..." *)
| UInt8OutOfRange        (* RangeError of Buffer.writeUInt8 *)
| CommitmentAtInfinity   (* "Resulting group commitment is the point at infinity" *)
| TweaksNotPaired        (* "Both bip32Tweak and taprootTweak must be provided together, or neither." *)
| InvalidPublicKey       (* "Invalid public key." *)
| CoefficientsNotInitialized
| SharesNotInitialized
| AggregateShareNotInitialized
| ShareNotLost           (* "Participant's share has not been lost" *)
| WrongShareCount        (* "Expected exactly ... shares, received ..." *)
| RepairSharesNotInitialized
| RepairShareIsNull
| IndexNotInInitialSet   (* "Participant index does not match the initial set." *)
| IndexesNotUnique       (* "Participant indexes must be unique." *)
| CommitmentCountMismatch (* "The number of ... must match ..." *)
| CommitmentsNotInitialized
| GroupCommitmentsNotInitialized
| RepairParticipantsNotInitialized
| NoncePairNotInitialized
| PublicKeyNotInitialized
| PublicKeyAtInfinity
| ThresholdNotGreater    (* "New threshold must be greater than the current threshold." *)
| NotAPoint              (* "The other object must be an instance of Point" *)
| TypeError              (* use of [undefined], as JavaScript raises it *)
| OutOfFuel.             (* the embedding's loop bound was reached; never in the source *)

Inductive result (A : Type) : Type :=
| Ok (a : A)
| Err (e : Error).
Arguments Ok {A} a.
Arguments Err {A} e.

Definition bind {A B : Type} (r : result A) (k : A -> result B) : result B :=
  match r with
  | Ok a => k a
  | Err e => Err e
  end.

Notation "x <- e ;; k" := (bind e (fun x => k))
  (at level 61, e at next level, right associativity).
Notation "' pat <- e ;; k" := (bind e (fun x => match x with pat => k end))
  (at level 61, pat pattern, e at next level, right associativity).

Definition isOk {A : Type} (r : result A) : bool :=
  match r with Ok _ => true | Err _ => false end.

(** ** bigint helpers

    [mod(a, b) = ((a % b) + b) % b] of point.ts.  Every call site passes
    [P] or [Q] for [b]. *)

Definition mod_ (a b : Z) : Z := Z.rem (Z.rem a b + b) b.

(** [pow] of participant.ts, which is also [Point.modPow] and
    [Matrix.modPow].  The loop [while (exponent > 0n)] reads the exponent bit
    by bit from the least significant one ([exponent % 2n], then
    [exponent >> 1n]); it is a structural recursion on the binary digits. *)

Fixpoint pow_loop (exponent : positive) (result base modulus : Z) : Z :=
  match exponent with
  | xH => Z.rem (result * base) modulus
  | xO e => pow_loop e result (Z.rem (base * base) modulus) modulus
  | xI e => pow_loop e (Z.rem (result * base) modulus)
                     (Z.rem (base * base) modulus) modulus
  end.

Definition pow (base exponent modulus : Z) : Z :=
  if modulus =? 1 then 0
  else match exponent with
       | Zpos e => pow_loop e 1 (Z.rem base modulus) modulus
       | _ => 1
       end.

Definition modPow := pow.

(** [Point.modInverse]: the extended Euclid loop [while (r !== 0n)].  The
    loop is bounded by [fuel]; [modInverse_fuel] is enough for every input
    (lemma [modInverse_loop_terminates]). *)

Fixpoint modInverse_loop (fuel : nat) (oldR r oldS s : Z) : option (Z * Z) :=
  if r =? 0 then Some (oldR, oldS)
  else match fuel with
       | O => None
       | S fuel' =>
           let quotient := Z.quot oldR r in
           modInverse_loop fuel' r (oldR - quotient * r) s (oldS - quotient * s)
       end.

Definition modInverse_fuel (m : Z) : nat := S (S (2 * Z.to_nat (Z.log2_up m))).

Definition modInverse (a m : Z) : result Z :=
  match modInverse_loop (modInverse_fuel m) (mod_ a m) m 1 0 with
  | None => Err OutOfFuel
  | Some (oldR, oldS) => if oldR >? 1 then Err NoInverse else Ok (mod_ oldS m)
  end.

(** ** point.ts *)

Record Point : Set := mkPoint { px : option Z; py : option Z }.

Definition infinity : Point := mkPoint None None.

Definition isInfinity (p : Point) : bool :=
  match px p, py p with
  | Some _, Some _ => false
  | _, _ => true
  end.

Definition isZero := isInfinity.

Definition strict_eq (a b : option Z) : bool :=
  match a, b with
  | Some u, Some v => u =? v
  | None, None => true
  | _, _ => false
  end.

Definition equals (p q : Point) : bool :=
  strict_eq (px p) (px q) && strict_eq (py p) (py q).

Definition negate (p : Point) : Point :=
  match px p, py p with
  | Some x, Some y => mkPoint (Some x) (Some (P - y))
  | _, _ => p
  end.

Definition normalize (p : Point) : Point :=
  match px p, py p with
  | Some x, Some y =>
      if y >? P - y then mkPoint (Some x) (Some (Z.rem (P - y) P))
      else mkPoint (Some x) (Some y)
  | _, _ => infinity
  end.

Definition double (p : Point) : result Point :=
  match px p, py p with
  | Some x, Some y =>
      if y =? 0 then Ok infinity
      else
        inv <- modInverse (2 * y) P ;;
        let s := mod_ (3 * x * x * inv) P in
        let sumX := mod_ (s * s - 2 * x) P in
        let sumY := mod_ (s * (x - sumX) - y) P in
        Ok (mkPoint (Some sumX) (Some sumY))
  | _, _ => Ok infinity
  end.

Definition add (p q : Point) : result Point :=
  if equals p q then double p
  else if isInfinity p then Ok (mkPoint (px q) (py q))
  else if isInfinity q then Ok (mkPoint (px p) (py p))
  else
    match px p, py p, px q, py q with
    | Some x1, Some y1, Some x2, Some y2 =>
        if (x1 =? x2) && negb (y1 =? y2) then Ok infinity
        else
          inv <- modInverse (x2 - x1) P ;;
          let s := mod_ ((y2 - y1) * inv) P in
          let sumX := mod_ (s * s - x1 - x2) P in
          let sumY := mod_ (s * (x1 - sumX) - y1) P in
          Ok (mkPoint (Some sumX) (Some sumY))
    | _, _, _, _ => Ok infinity
    end.

Definition subtract (p q : Point) : result Point := add p (negate q).

(** [multiply]: [while (i <= scalar)] with [i = 1, 2, 4, ...] visits the
    bits of the reduced scalar from the least significant one up to its top
    bit; each round adds [p] when the bit is set and then doubles [p] (also
    after the top bit, where the doubled point is not used any more). *)

Fixpoint multiply_loop (scalar : positive) (p r : Point) : result Point :=
  match scalar with
  | xH => r' <- add r p ;; _ <- double p ;; Ok r'
  | xO s => p' <- double p ;; multiply_loop s p' r
  | xI s => r' <- add r p ;; p' <- double p ;; multiply_loop s p' r'
  end.

Definition multiply (p : Point) (scalar : Z) : result Point :=
  match mod_ scalar Q with
  | Zpos s => multiply_loop s (mkPoint (px p) (py p)) infinity
  | _ => Ok infinity
  end.

Definition G : Point := mkPoint (Some GX) (Some GY).

(** ** Buffers and hexadecimal strings (Node's [Buffer] and [BigInt]) *)

Definition byte_of_Z (z : Z) : byte :=
  match Byte.of_N (Z.to_N (z mod 256)) with
  | Some b => b
  | None => x00
  end.

Definition Z_of_byte (b : byte) : Z := Z.of_N (Byte.to_N b).

(** [BigInt("0x" + buf.toString("hex"))]: the big-endian value of a
    (non-empty) buffer. *)
Definition bytes_to_Z (bs : list byte) : Z :=
  fold_left (fun acc b => acc * 256 + Z_of_byte b) bs 0.

(** The loop of [secSerialize]: [xBytes[i] = Number(x & 0xffn); x >>= 8n]
    for [i] from [n-1] down to [0]. *)
Fixpoint be_bytes (n : nat) (x : Z) : list byte :=
  match n with
  | O => []
  | S k => be_bytes k (Z.shiftr x 8) ++ [byte_of_Z (Z.land x 255)]
  end.

Definition hexDigit (d : Z) : ascii :=
  nth (Z.to_nat d)
      ["0"; "1"; "2"; "3"; "4"; "5"; "6"; "7"; "8"; "9";
       "a"; "b"; "c"; "d"; "e"; "f"]%char "0"%char.

(** [x.toString(16)] of a bigint: no leading zero, a minus sign first for a
    negative number. *)
Definition hexLength (x : Z) : nat :=
  if x =? 0 then 1%nat else S (Z.to_nat (Z.log2 x / 4)).

Definition hexDigitsFrom (n : nat) (x : Z) : list ascii :=
  map (fun i => hexDigit (Z.land (Z.shiftr x (4 * Z.of_nat i)) 15))
      (rev (seq 0 n)).

Definition toString16 (x : Z) : list ascii :=
  if x <? 0 then "-"%char :: hexDigitsFrom (hexLength (- x)) (- x)
  else hexDigitsFrom (hexLength x) x.

Definition padStart (n : nat) (s : list ascii) : list ascii :=
  repeat "0"%char (n - length s) ++ s.

Definition unhex (c : ascii) : option Z :=
  let n := Z.of_N (N_of_ascii c) in
  if (48 <=? n) && (n <=? 57) then Some (n - 48)
  else if (97 <=? n) && (n <=? 102) then Some (n - 87)
  else if (65 <=? n) && (n <=? 70) then Some (n - 55)
  else None.

(** Node's hexadecimal decoder: two digits a byte, stopping at the first
    pair that is not hexadecimal and dropping a single trailing digit. *)
Fixpoint hexDecode (s : list ascii) : list byte :=
  match s with
  | a :: b :: rest =>
      match unhex a, unhex b with
      | Some h, Some l => byte_of_Z (16 * h + l) :: hexDecode rest
      | _, _ => []
      end
  | _ => []
  end.

(** [const b = Buffer.alloc(32); b.write(s, 0, "hex")]. *)
Definition bufferWrite32 (s : list ascii) : list byte :=
  let d := firstn 32 (hexDecode s) in
  d ++ repeat x00 (32 - length d).

(** [Buffer.alloc(1)] then [writeUInt8(index)]: a RangeError outside
    [0..255]. *)
Definition writeUInt8 (index : Z) : result (list byte) :=
  if (0 <=? index) && (index <=? 255) then Ok [byte_of_Z index]
  else Err UInt8OutOfRange.

(** ** Serialization of points (point.ts) *)

Definition secSerialize (p : Point) : result (list byte) :=
  match px p, py p with
  | Some x, Some y =>
      let prefix := if Z.rem y 2 =? 0 then x02 else x03 in
      Ok (prefix :: be_bytes 32 x)
  | _, _ => Err SerializeInfinity
  end.

Definition secDeserialize (hexPublicKey : string) : result Point :=
  let hexBytes := hexDecode (list_ascii_of_string hexPublicKey) in
  match hexBytes with
  | prefix :: xBytes =>
      if negb (length hexBytes =? 33)%nat then Err InvalidHexInput
      else
        let isEven := Z_of_byte prefix =? 2 in
        let x := bytes_to_Z xBytes in
        let ySquared := Z.rem (x ^ 3 + 7) P in
        let y := modPow ySquared (Z.quot (P + 1) 4) P in
        let y' :=
          if Z.rem y 2 =? 0
          then (if isEven then y else Z.rem (P - y) P)
          else (if isEven then Z.rem (P - y) P else y) in
        Ok (mkPoint (Some x) (Some y'))
  | [] => Err InvalidHexInput
  end.

Definition modularSquareRoot (a p : Z) : option Z :=
  let r := modPow a (Z.quot (p + 1) 4) p in
  if Z.rem (r * r) p =? a then Some r else None.

Definition xonlyDeserialize (hexPublicKey : list byte) : result Point :=
  if negb (length hexPublicKey =? 32)%nat then Err InvalidXonlyLength
  else
    let x := bytes_to_Z hexPublicKey in
    let ySquared := Z.rem (x * x * x + 7) P in
    match modularSquareRoot ySquared P with
    | None => Err InvalidHexInput
    | Some y =>
        let y' := if negb (Z.rem y 2 =? 0) then Z.rem (P - y) P else y in
        Ok (mkPoint (Some x) (Some y'))
    end.

Definition xonlySerialize (p : Point) : result (list byte) :=
  match px p, py p with
  | Some x, Some _ => Ok (bufferWrite32 (padStart 64 (toString16 x)))
  | _, _ => Err SerializeInfinity
  end.

(** ** SHA-256 ([crypto.createHash("sha256")] of Node), after FIPS 180-4 *)

Module SHA256.

Definition mask32 : Z := 0xFFFFFFFF.
Definition add32 (a b : Z) : Z := Z.land (a + b) mask32.
Definition rotr (n x : Z) : Z :=
  Z.lor (Z.shiftr x n) (Z.land (Z.shiftl x (32 - n)) mask32).
Definition Ch (x y z : Z) : Z :=
  Z.lxor (Z.land x y) (Z.land (Z.lxor x mask32) z).
Definition Maj (x y z : Z) : Z :=
  Z.lxor (Z.lxor (Z.land x y) (Z.land x z)) (Z.land y z).
Definition bsig0 (x : Z) : Z := Z.lxor (Z.lxor (rotr 2 x) (rotr 13 x)) (rotr 22 x).
Definition bsig1 (x : Z) : Z := Z.lxor (Z.lxor (rotr 6 x) (rotr 11 x)) (rotr 25 x).
Definition ssig0 (x : Z) : Z := Z.lxor (Z.lxor (rotr 7 x) (rotr 18 x)) (Z.shiftr x 3).
Definition ssig1 (x : Z) : Z := Z.lxor (Z.lxor (rotr 17 x) (rotr 19 x)) (Z.shiftr x 10).

(** The 64 round constants, most significant word first in one numeral. *)
Definition Kbits : Z :=
  0x428a2f9871374491b5c0fbcfe9b5dba53956c25b59f111f1923f82a4ab1c5ed5d807aa9812835b01243185be550c7dc372be5d7480deb1fe9bdc06a7c19bf174e49b69c1efbe47860fc19dc6240ca1cc2de92c6f4a7484aa5cb0a9dc76f988da983e5152a831c66db00327c8bf597fc7c6e00bf3d5a7914706ca63511429296727b70a852e1b21384d2c6dfc53380d13650a7354766a0abb81c2c92e92722c85a2bfe8a1a81a664bc24b8b70c76c51a3d192e819d6990624f40e3585106aa07019a4c1161e376c082748774c34b0bcb5391c0cb34ed8aa4a5b9cca4f682e6ff3748f82ee78a5636f84c878148cc7020890befffaa4506cebbef9a3f7c67178f2.

Definition K : list Z :=
  map (fun i => Z.land (Z.shiftr Kbits (32 * Z.of_nat (63 - i))) mask32) (seq 0 64).

Definition H0bits : Z :=
  0x6a09e667bb67ae853c6ef372a54ff53a510e527f9b05688c1f83d9ab5be0cd19.

Definition H0 : list Z :=
  map (fun i => Z.land (Z.shiftr H0bits (32 * Z.of_nat (7 - i))) mask32) (seq 0 8).

(** The message with its padding: one [0x80], zeros, the bit length on 8
    bytes. *)
Definition pad (msg : list byte) : list byte :=
  let len := Z.of_nat (length msg) in
  msg ++ [x80] ++ repeat x00 (Z.to_nat ((55 - len) mod 64))
      ++ be_bytes 8 (8 * len).

Fixpoint words (n : nat) (bs : list byte) : list Z :=
  match n with
  | O => []
  | S k => bytes_to_Z (firstn 4 bs) :: words k (skipn 4 bs)
  end.

(** The schedule is kept newest word first. *)
Fixpoint schedule (n : nat) (w : list Z) : list Z :=
  match n with
  | O => w
  | S k =>
      let wt := add32 (add32 (ssig1 (nth 1 w 0)) (nth 6 w 0))
                      (add32 (ssig0 (nth 14 w 0)) (nth 15 w 0)) in
      schedule k (wt :: w)
  end.

Definition round (s : list Z) (kw : Z * Z) : list Z :=
  match s with
  | [a; b; c; d; e; f; g; h] =>
      let t1 := add32 (add32 (add32 h (bsig1 e)) (add32 (Ch e f g) (fst kw)))
                      (snd kw) in
      let t2 := add32 (bsig0 a) (Maj a b c) in
      [add32 t1 t2; a; b; c; add32 d t1; e; f; g]
  | _ => s
  end.

Definition compress (h : list Z) (block : list byte) : list Z :=
  let w := rev (schedule 48 (rev (words 16 block))) in
  let s := fold_left round (combine K w) h in
  map (fun p => add32 (fst p) (snd p)) (combine h s).

Fixpoint blocks (n : nat) (h : list Z) (bs : list byte) : list Z :=
  match n with
  | O => h
  | S k => blocks k (compress h (firstn 64 bs)) (skipn 64 bs)
  end.

Definition digest (msg : list byte) : list byte :=
  let padded := pad msg in
  let h := blocks (length padded / 64) H0 padded in
  flat_map (be_bytes 4) h.

End SHA256.

Definition sha256 := SHA256.digest.

Definition bytes_of_string (s : string) : list byte :=
  map (fun c => byte_of_Z (Z.of_N (N_of_ascii c))) (list_ascii_of_string s).

(** ** Traversals with errors *)

Fixpoint mapM {A B : Type} (f : A -> result B) (l : list A) : result (list B) :=
  match l with
  | [] => Ok []
  | a :: l' => b <- f a ;; bs <- mapM f l' ;; Ok (b :: bs)
  end.

Fixpoint foldM {A B : Type} (f : B -> A -> result B) (l : list A) (b : B)
  : result B :=
  match l with
  | [] => Ok b
  | a :: l' => b' <- f b a ;; foldM f l' b'
  end.

(** [a[i]!] used as a value: [undefined] makes the following bigint or
    method use raise a TypeError. *)
Definition getIndex {A : Type} (l : list A) (i : nat) : result A :=
  match nth_error l i with
  | Some a => Ok a
  | None => Err TypeError
  end.

(** ** matrix.ts *)

Module Matrix.

Definition t : Type := list (list Z).

Definition createVandermonde (indices : list Z) : t :=
  let n := length indices in
  map (fun x => map (fun i => Z.rem (x ^ Z.of_nat i) Q) (seq 0 n)) indices.

Definition removeAt {A : Type} (c : nat) (row : list A) : list A :=
  firstn c row ++ skipn (S c) row.

(** [determinant] recurses on a minor with one row less; [fuel] counts the
    rows. *)
Fixpoint determinant_rec (fuel : nat) (matrix : t) : result Z :=
  match matrix with
  | [row0] => m00 <- getIndex row0 0 ;; Ok (Z.rem m00 Q)
  | [row0; row1] =>
      m00 <- getIndex row0 0 ;; m11 <- getIndex row1 1 ;;
      m01 <- getIndex row0 1 ;; m10 <- getIndex row1 0 ;;
      Ok (Z.rem (m00 * m11 - m01 * m10) Q)
  | _ =>
      match fuel with
      | O => match matrix with [] => Ok 0 | _ => Err OutOfFuel end
      | S fuel' =>
          foldM (fun det c =>
                   let minor := map (removeAt c) (tl matrix) in
                   m0c <- getIndex (hd [] matrix) c ;;
                   d <- determinant_rec fuel' minor ;;
                   let det' := det + Z.rem ((-1) ^ Z.of_nat c * m0c * d) Q in
                   Ok (Z.rem det' Q))
                (seq 0 (length matrix)) 0
      end
  end.

Definition determinant (matrix : t) : result Z :=
  determinant_rec (length matrix) matrix.

Definition multPointMatrix (matrix : t) (Y : list (list Point))
  : result (list (list Point)) :=
  mapM (fun aRow =>
          Y0 <- getIndex Y 0 ;;
          mapM (fun j =>
                  foldM (fun sumPoint k =>
                           Yk <- getIndex Y k ;;
                           point <- getIndex Yk j ;;
                           a <- getIndex aRow k ;;
                           pk <- multiply point a ;;
                           add sumPoint pk)
                        (seq 0 (length aRow)) infinity)
               (seq 0 (length Y0)))
       matrix.

Definition inverseMatrix (matrix : t) : result t :=
  let n := length matrix in
  cof <- mapM (fun i =>
                 mapM (fun j =>
                         let minor := map (removeAt j) (removeAt i matrix) in
                         d <- determinant minor ;;
                         Ok (Z.rem ((-1) ^ Z.of_nat (i + j) * d) Q))
                      (seq 0 n))
              (seq 0 n) ;;
  det <- determinant matrix ;;
  let detInv := modPow det (Q - 2) Q in
  Ok (map (fun row =>
             map (fun col => Z.rem (nth row (nth col cof []) 0 * detInv) Q)
                 (seq 0 n))
          (seq 0 n)).

End Matrix.

(** ** aggregator.ts *)

Module Aggregator.

Record t : Type := mk {
  publicKey : Point;
  message : list byte;
  nonceCommitmentPairs : list (Point * Point);
  participantIndexes : list Z;
  tweakedKey : option Point;
  tweak : option Z
}.

Definition ComputeTweaks (bip32Tweak taprootTweak : Z) (publicKey : Point)
  : result (Point * Z * Z) :=
  gb <- multiply G bip32Tweak ;;
  bip32Key <- add publicKey gb ;;
  match py bip32Key with
  | None => Err InvalidPublicKey
  | Some y1 =>
      let isBip32KeyOdd := negb (Z.rem y1 2 =? 0) in
      let adjustedBip32Key := if isBip32KeyOdd then negate bip32Key else bip32Key in
      let bip32Parity := if isBip32KeyOdd then 1 else 0 in
      let adjustedBip32Tweak := if isBip32KeyOdd then - bip32Tweak else bip32Tweak in
      gt <- multiply G taprootTweak ;;
      aggregateKey <- add adjustedBip32Key gt ;;
      match py aggregateKey with
      | None => Err InvalidPublicKey
      | Some y2 =>
          let aggregateTweak := Z.rem (adjustedBip32Tweak + taprootTweak) Q in
          let adjustedAggregateTweak :=
            if negb (Z.rem y2 2 =? 0) then Z.rem (- aggregateTweak + Q) Q
            else aggregateTweak in
          Ok (aggregateKey, adjustedAggregateTweak, bip32Parity)
      end
  end.

Definition tweakKey (bip32Tweak taprootTweak : Z) (publicKey : Point)
  : result (Point * Z) :=
  '(tweakedKey, _, p) <- ComputeTweaks bip32Tweak taprootTweak publicKey ;;
  Ok (tweakedKey, p).

(** The constructor; an absent optional argument is [None]. *)
Definition newAggregator (publicKey : Point) (message : list byte)
    (nonceCommitmentPairs : list (Point * Point)) (participantIndexes : list Z)
    (bip32Tweak taprootTweak : option Z) : result t :=
  match bip32Tweak, taprootTweak with
  | None, None =>
      Ok (mk publicKey message nonceCommitmentPairs
             participantIndexes None None)
  | Some b, Some t =>
      '(tweakedKey, tweak, _) <- ComputeTweaks b t publicKey ;;
      Ok (mk publicKey message nonceCommitmentPairs
             participantIndexes (Some tweakedKey) (Some tweak))
  | _, _ => Err TweaksNotPaired
  end.

Definition pairBytes (pair : Point * Point) : result (list byte) :=
  b1 <- secSerialize (fst pair) ;;
  b2 <- secSerialize (snd pair) ;;
  Ok (b1 ++ b2).

Definition indexInRange (idx : Z) (pairs : list (Point * Point)) : bool :=
  negb ((idx <? 1) || (idx >? Z.of_nat (length pairs))).

Definition bindingValue (index : Z) (message : list byte)
    (nonceCommitmentPairs : list (Point * Point)) (participantIndexes : list Z)
  : result Z :=
  if index <? 1 then Err IndexMustStartFromOne
  else
    indexByte <- writeUInt8 index ;;
    nonceCommitmentPairsBytes <-
      mapM (fun idx =>
              if indexInRange idx nonceCommitmentPairs
              then
                participantPair <- getIndex nonceCommitmentPairs (Z.to_nat (idx - 1)) ;;
                pairBytes participantPair
              else Err IndexOutOfRange)
           participantIndexes ;;
    let bindingValueBytes :=
      sha256 (indexByte ++ message ++ concat nonceCommitmentPairsBytes) in
    Ok (Z.rem (bytes_to_Z bindingValueBytes) Q).

Definition groupCommitment (message : list byte)
    (nonceCommitmentPairs : list (Point * Point)) (participantIndexes : list Z)
  : result Point :=
  gc <- foldM (fun groupCommitment index =>
                 if indexInRange index nonceCommitmentPairs
                 then
                   bv <- bindingValue index message nonceCommitmentPairs
                                      participantIndexes ;;
                   pair <- getIndex nonceCommitmentPairs (Z.to_nat (index - 1)) ;;
                   sc <- multiply (snd pair) bv ;;
                   partialCommitment <- add (fst pair) sc ;;
                   add groupCommitment partialCommitment
                 else Err IndexOutOfRange)
              participantIndexes infinity ;;
  if isInfinity gc then Err CommitmentAtInfinity else Ok gc.

Definition challengeTag : list byte := sha256 (bytes_of_string "BIP0340/challenge").

Definition challengeHash (nonceCommitment publicKey : Point) (message : list byte)
  : result Z :=
  r <- xonlySerialize nonceCommitment ;;
  k <- xonlySerialize publicKey ;;
  Ok (Z.rem (bytes_to_Z (sha256 (challengeTag ++ challengeTag ++ r ++ k ++ message))) Q).

Definition signingInputs (a : t) : list byte * list (Point * Point) :=
  (message a, nonceCommitmentPairs a).

Definition sumShares (signatureShares : list Z) : Z :=
  let z := fold_left (fun sum share => Z.rem (sum + share) Q) signatureShares 0 in
  if z <? 0 then Z.rem (z + Q) Q else z.

Definition signature (a : t) (signatureShares : list Z)
  : result (list byte) :=
  gc <- groupCommitment (message a) (nonceCommitmentPairs a)
                        (participantIndexes a) ;;
  let z := sumShares signatureShares in
  z' <- match tweak a, tweakedKey a with
        | Some tweak, Some tweakedKey =>
            c <- challengeHash gc tweakedKey (message a) ;;
            Ok (Z.rem (z + c * tweak) Q)
        | _, _ => Ok z
        end ;;
  nonceCommitmentBuffer <- xonlySerialize gc ;;
  let zBuffer := bufferWrite32 (padStart 64 (toString16 z')) in
  Ok (nonceCommitmentBuffer ++ zBuffer).

End Aggregator.

(** ** participant.ts

    A method that only reads [this] is a function of the participant that
    returns a [result].  A method that assigns to [this] is a computation in
    the monad [M]: it returns the participant as the method leaves it, also
    when it throws, together with the outcome.  The random draws of the
    source ([crypto.randomBytes], [Math.random]) are arguments. *)

Module Participant.

Record t : Type := mk {
  index : Z;
  threshold : Z;
  participants : Z;
  coefficients : option (list Z);
  coefficientCommitments : option (list Point);
  proofOfKnowledge : option (Point * Z);
  shares : option (list Z);
  aggregateShare : option Z;
  noncePair : option (Z * Z);
  nonceCommitmentPair : option (Point * Point);
  publicKey : option Point;
  repairShares : option (list (option Z));
  aggregateRepairShare : option Z;
  repairShareCommitments : option (list (option Point));
  groupCommitments : option (list Point);
  repairParticipants : option (list Z)
}.

(** [new Participant(index, threshold, participants)]. *)
Definition new (index threshold participants : Z) : t :=
  mk index threshold participants None None None None None None None None
     None None None None None.

Definition set_threshold (v : Z) (p : t) : t :=
  mk (index p) v (participants p) (coefficients p) (coefficientCommitments p)
     (proofOfKnowledge p) (shares p) (aggregateShare p) (noncePair p)
     (nonceCommitmentPair p) (publicKey p) (repairShares p)
     (aggregateRepairShare p) (repairShareCommitments p) (groupCommitments p)
     (repairParticipants p).
Definition set_coefficients (v : option (list Z)) (p : t) : t :=
  mk (index p) (threshold p) (participants p) v (coefficientCommitments p)
     (proofOfKnowledge p) (shares p) (aggregateShare p) (noncePair p)
     (nonceCommitmentPair p) (publicKey p) (repairShares p)
     (aggregateRepairShare p) (repairShareCommitments p) (groupCommitments p)
     (repairParticipants p).
Definition set_coefficientCommitments (v : option (list Point)) (p : t) : t :=
  mk (index p) (threshold p) (participants p) (coefficients p) v
     (proofOfKnowledge p) (shares p) (aggregateShare p) (noncePair p)
     (nonceCommitmentPair p) (publicKey p) (repairShares p)
     (aggregateRepairShare p) (repairShareCommitments p) (groupCommitments p)
     (repairParticipants p).
Definition set_proofOfKnowledge (v : option (Point * Z)) (p : t) : t :=
  mk (index p) (threshold p) (participants p) (coefficients p)
     (coefficientCommitments p) v (shares p) (aggregateShare p) (noncePair p)
     (nonceCommitmentPair p) (publicKey p) (repairShares p)
     (aggregateRepairShare p) (repairShareCommitments p) (groupCommitments p)
     (repairParticipants p).
Definition set_shares (v : option (list Z)) (p : t) : t :=
  mk (index p) (threshold p) (participants p) (coefficients p)
     (coefficientCommitments p) (proofOfKnowledge p) v (aggregateShare p)
     (noncePair p) (nonceCommitmentPair p) (publicKey p) (repairShares p)
     (aggregateRepairShare p) (repairShareCommitments p) (groupCommitments p)
     (repairParticipants p).
Definition set_aggregateShare (v : option Z) (p : t) : t :=
  mk (index p) (threshold p) (participants p) (coefficients p)
     (coefficientCommitments p) (proofOfKnowledge p) (shares p) v
     (noncePair p) (nonceCommitmentPair p) (publicKey p) (repairShares p)
     (aggregateRepairShare p) (repairShareCommitments p) (groupCommitments p)
     (repairParticipants p).
Definition set_nonces (n : option (Z * Z)) (c : option (Point * Point)) (p : t) : t :=
  mk (index p) (threshold p) (participants p) (coefficients p)
     (coefficientCommitments p) (proofOfKnowledge p) (shares p)
     (aggregateShare p) n c (publicKey p) (repairShares p)
     (aggregateRepairShare p) (repairShareCommitments p) (groupCommitments p)
     (repairParticipants p).
Definition set_publicKey (v : option Point) (p : t) : t :=
  mk (index p) (threshold p) (participants p) (coefficients p)
     (coefficientCommitments p) (proofOfKnowledge p) (shares p)
     (aggregateShare p) (noncePair p) (nonceCommitmentPair p) v
     (repairShares p) (aggregateRepairShare p) (repairShareCommitments p)
     (groupCommitments p) (repairParticipants p).
Definition set_repairShares (v : option (list (option Z))) (p : t) : t :=
  mk (index p) (threshold p) (participants p) (coefficients p)
     (coefficientCommitments p) (proofOfKnowledge p) (shares p)
     (aggregateShare p) (noncePair p) (nonceCommitmentPair p) (publicKey p)
     v (aggregateRepairShare p) (repairShareCommitments p)
     (groupCommitments p) (repairParticipants p).
Definition set_aggregateRepairShare (v : option Z) (p : t) : t :=
  mk (index p) (threshold p) (participants p) (coefficients p)
     (coefficientCommitments p) (proofOfKnowledge p) (shares p)
     (aggregateShare p) (noncePair p) (nonceCommitmentPair p) (publicKey p)
     (repairShares p) v (repairShareCommitments p) (groupCommitments p)
     (repairParticipants p).
Definition set_repairShareCommitments (v : option (list (option Point))) (p : t) : t :=
  mk (index p) (threshold p) (participants p) (coefficients p)
     (coefficientCommitments p) (proofOfKnowledge p) (shares p)
     (aggregateShare p) (noncePair p) (nonceCommitmentPair p) (publicKey p)
     (repairShares p) (aggregateRepairShare p) v (groupCommitments p)
     (repairParticipants p).
Definition set_groupCommitments (v : option (list Point)) (p : t) : t :=
  mk (index p) (threshold p) (participants p) (coefficients p)
     (coefficientCommitments p) (proofOfKnowledge p) (shares p)
     (aggregateShare p) (noncePair p) (nonceCommitmentPair p) (publicKey p)
     (repairShares p) (aggregateRepairShare p) (repairShareCommitments p) v
     (repairParticipants p).
Definition set_repairParticipants (v : option (list Z)) (p : t) : t :=
  mk (index p) (threshold p) (participants p) (coefficients p)
     (coefficientCommitments p) (proofOfKnowledge p) (shares p)
     (aggregateShare p) (noncePair p) (nonceCommitmentPair p) (publicKey p)
     (repairShares p) (aggregateRepairShare p) (repairShareCommitments p)
     (groupCommitments p) v.

(** *** The state-and-exception monad of the mutating methods *)

Definition M (A : Type) : Type := t -> t * result A.

Definition ret {A : Type} (a : A) : M A := fun p => (p, Ok a).
Definition throw {A : Type} (e : Error) : M A := fun p => (p, Err e).
Definition bindM {A B : Type} (m : M A) (k : A -> M B) : M B :=
  fun p => match m p with
           | (p', Ok a) => k a p'
           | (p', Err e) => (p', Err e)
           end.
Definition this : M t := fun p => (p, Ok p).
Definition assign (f : t -> t) : M unit := fun p => (f p, Ok tt).
Definition lift {A : Type} (r : result A) : M A := fun p => (p, r).

Notation "x <~ e ;; k" := (bindM e (fun x => k))
  (at level 61, e at next level, right associativity).
Notation "e ;;; k" := (bindM e (fun _ => k))
  (at level 61, right associativity).

(** [CONTEXT = Buffer.from("FROST-BIP340")]. *)
Definition CONTEXT : list byte := bytes_of_string "FROST-BIP340".

(** *** Polynomials *)

(** [random i] is the value of [BigInt("0x" + crypto.randomBytes(32)...)] at
    the [i]-th draw. *)
Definition generatePolynomial (random : nat -> Z) : M unit :=
  p <~ this ;;
  assign (set_coefficients
            (Some (map (fun i => Z.rem (random i) Q)
                       (seq 0 (Z.to_nat (threshold p)))))).

(** [random i] is the value of [BigInt(Math.floor(Math.random() * Number(Q)))]
    at the [i]-th draw. *)
Definition generateRefreshPolynomial (random : nat -> Z) : M unit :=
  p <~ this ;;
  assign (set_coefficients
            (Some (0 :: map random (seq 0 (Z.to_nat (threshold p - 1)))))).

Definition generateThresholdIncreasePolynomial (random : nat -> Z)
    (newThreshold : Z) : M unit :=
  assign (set_coefficients
            (Some (map random (seq 0 (Z.to_nat (newThreshold - 1)))))).

Definition pokChallenge (index : Z) (secretCommitment nonceCommitment : Point)
  : result Z :=
  indexByte <- writeUInt8 index ;;
  secretCommitmentBytes <- secSerialize secretCommitment ;;
  nonceCommitmentBytes <- secSerialize nonceCommitment ;;
  Ok (bytes_to_Z (sha256 (indexByte ++ CONTEXT ++ secretCommitmentBytes
                                    ++ nonceCommitmentBytes))).

(** [randomNonce] is the value of
    [BigInt("0x" + crypto.randomBytes(32).toString("hex"))]. *)
Definition computeProofOfKnowledge (randomNonce : Z) : M unit :=
  p <~ this ;;
  match coefficients p with
  | None | Some [] => throw CoefficientsNotInitialized
  | Some (secret :: _) =>
      let nonce := Z.rem randomNonce Q in
      nonceCommitment <~ lift (multiply G nonce) ;;
      indexByte <~ lift (writeUInt8 (index p)) ;;
      secretCommitment <~ lift (multiply G secret) ;;
      secretCommitmentBytes <~ lift (secSerialize secretCommitment) ;;
      nonceCommitmentBytes <~ lift (secSerialize nonceCommitment) ;;
      let challengeHashInt :=
        bytes_to_Z (sha256 (indexByte ++ CONTEXT ++ secretCommitmentBytes
                                      ++ nonceCommitmentBytes)) in
      let s := Z.rem (nonce + secret * challengeHashInt) Q in
      assign (set_proofOfKnowledge (Some (nonceCommitment, s)))
  end.

Definition computeCoefficientCommitments : M unit :=
  p <~ this ;;
  match coefficients p with
  | None => throw CoefficientsNotInitialized
  | Some cs =>
      ccs <~ lift (mapM (fun coefficient => multiply G coefficient) cs) ;;
      assign (set_coefficientCommitments (Some ccs))
  end.

Definition initKeygen (random : nat -> Z) (randomNonce : Z) : M unit :=
  generatePolynomial random ;;;
  computeProofOfKnowledge randomNonce ;;;
  computeCoefficientCommitments.

Definition initRefresh (random : nat -> Z) : M unit :=
  generateRefreshPolynomial random ;;;
  computeCoefficientCommitments.

Definition initThresholdIncrease (random : nat -> Z) (randomNonce : Z)
    (newThreshold : Z) : M unit :=
  p <~ this ;;
  if newThreshold <=? threshold p then throw ThresholdNotGreater
  else
    generateThresholdIncreasePolynomial random newThreshold ;;;
    computeProofOfKnowledge randomNonce ;;;
    computeCoefficientCommitments ;;;
    assign (set_threshold newThreshold).

Definition verifyProofOfKnowledge (proof : Point * Z) (secretCommitment : Point)
    (index : Z) : result bool :=
  let '(nonceCommitment, s) := proof in
  indexByte <- writeUInt8 index ;;
  secretCommitmentBytes <- secSerialize secretCommitment ;;
  nonceCommitmentBytes <- secSerialize nonceCommitment ;;
  let challengeHashInt :=
    bytes_to_Z (sha256 (indexByte ++ CONTEXT ++ secretCommitmentBytes
                                  ++ nonceCommitmentBytes)) in
  gs <- multiply G s ;;
  sc <- multiply secretCommitment (Q - challengeHashInt) ;;
  expectedNonceCommitment <- add gs sc ;;
  Ok (equals nonceCommitment expectedNonceCommitment).

Definition evaluatePolynomial (p : t) (x : Z) : result Z :=
  match coefficients p with
  | None | Some [] => Err CoefficientsNotInitialized
  | Some cs => Ok (fold_right (fun c y => Z.rem (y * x + c) Q) 0 cs)
  end.

Definition generateShares : M unit :=
  p <~ this ;;
  match coefficients p with
  | None => throw CoefficientsNotInitialized
  | Some _ =>
      ss <~ lift (mapM (fun i => evaluatePolynomial p (Z.of_nat i + 1))
                       (seq 0 (Z.to_nat (participants p)))) ;;
      assign (set_shares (Some ss))
  end.

(** *** Lagrange coefficients *)

Fixpoint hasDuplicate (l : list Z) : bool :=
  match l with
  | [] => false
  | a :: l' => existsb (Z.eqb a) l' || hasDuplicate l'
  end.

Definition lagrangeProducts (participantIndexes : list Z) (x participantIndex : Z)
  : Z * Z :=
  fold_left (fun nd index =>
               if index =? participantIndex then nd
               else (fst nd * (x - index), snd nd * (participantIndex - index)))
            participantIndexes (1, 1).

(** [_lagrangeCoefficient(participantIndexes, x, participantIndex)]; the
    defaults of the source ([x = 0n], [participantIndex = BigInt(this.index)])
    are written at the call sites. *)
Definition _lagrangeCoefficient (participantIndexes : list Z)
    (x participantIndex : Z) : result Z :=
  if hasDuplicate participantIndexes then Err IndexesNotUnique
  else
    let '(numerator, denominator) :=
      lagrangeProducts participantIndexes x participantIndex in
    Ok (Z.rem (numerator * pow denominator (Q - 2) Q) Q).

(** *** Repair *)

Fixpoint insertSorted (a : Z) (l : list Z) : list Z :=
  match l with
  | [] => [a]
  | b :: l' => if a <=? b then a :: l else b :: insertSorted a l'
  end.

(** [sort((a, b) => a - b)]. *)
Definition sortNumbers (l : list Z) : list Z := fold_right insertSorted [] l.

(** [random i] is the value of [BigInt(Math.floor(Math.random() * Number(Q)))]
    at the [i]-th draw. *)
Definition generateRepairShares (random : nat -> Z) (repairParticipants : list Z)
    (index : Z) : M unit :=
  p <~ this ;;
  match aggregateShare p with
  | None => throw AggregateShareNotInitialized
  | Some aggregateShare =>
      lagrangeCoefficient <~ lift (_lagrangeCoefficient repairParticipants 0 index) ;;
      let randomShares := map random (seq 0 (Z.to_nat (threshold p - 1))) in
      let finalShare :=
        Z.rem (lagrangeCoefficient * aggregateShare
               - fold_left (fun a b => a + b) randomShares 0) Q in
      let repairShares := randomShares ++ [finalShare] in
      assign (set_repairShares (Some (map Some repairShares))) ;;;
      commitments <~ lift (mapM (fun share => c <- multiply G share ;; Ok (Some c))
                                repairShares) ;;
      assign (set_repairShareCommitments (Some commitments)) ;;;
      assign (set_repairParticipants
                (Some (sortNumbers (repairParticipants ++ [Participant.index p]))))
  end.

Fixpoint indexOf (a : Z) (l : list Z) : nat :=
  match l with
  | [] => O
  | b :: l' => if b =? a then O else S (indexOf a l')
  end.

Definition includes (a : Z) (l : list Z) : bool := existsb (Z.eqb a) l.

(** [getRepairShare] returns [repairShares[mappedIndex]!]: a bigint, [null]
    ([Ok None]) or, past the end of the array, [undefined], which is
    [Err TypeError] here: the only caller adds a bigint to it or stores it
    in a field that is never read. *)
Definition getRepairShare (p : t) (participantIndex : Z) : result (option Z) :=
  match repairParticipants p, repairShares p with
  | Some rp, Some rs =>
      if includes participantIndex rp
      then getIndex rs (indexOf participantIndex rp)
      else Err IndexNotInInitialSet
  | _, _ => Err RepairSharesNotInitialized
  end.

Definition getRepairShareCommitment (p : t) (participantIndex : Z)
    (repairShareCommitments : list Point) (repairParticipants : option (list Z))
  : result Point :=
  rp <- match repairParticipants with
        | Some rp => Ok rp
        | None => match Participant.repairParticipants p with
                  | Some rp => Ok rp
                  | None => Err RepairParticipantsNotInitialized
                  end
        end ;;
  if includes participantIndex rp
  then getIndex repairShareCommitments (indexOf participantIndex rp)
  else Err IndexNotInInitialSet.

Definition aggregateRepairShares (otherShares : list Z) : M unit :=
  p <~ this ;;
  match repairShares p with
  | None => throw RepairSharesNotInitialized
  | Some _ =>
      if negb (Z.of_nat (length otherShares) =? threshold p - 1)
      then throw WrongShareCount
      else
        own <~ lift (getRepairShare p (index p)) ;;
        match own with
        | None => throw RepairShareIsNull
        | Some own =>
            assign (set_aggregateRepairShare
                      (Some (fold_left (fun a otherShare => Z.rem (a + otherShare) Q)
                                       otherShares own)))
        end
  end.

Definition repairShare (aggregateRepairShares : list Z) : M unit :=
  p <~ this ;;
  match aggregateShare p with
  | Some _ => throw ShareNotLost
  | None =>
      if negb (Z.of_nat (length aggregateRepairShares) =? threshold p)
      then throw WrongShareCount
      else
        assign (set_aggregateShare
                  (Some (fold_left (fun a b => Z.rem (a + b) Q)
                                   aggregateRepairShares 0)))
  end.

(** *** Shares and public data *)

Definition derivePublicVerificationShare (coefficientCommitments : list Point)
    (index threshold : Z) : result Point :=
  if negb (Z.of_nat (length coefficientCommitments) =? threshold)
  then Err CommitmentCountMismatch
  else
    foldM (fun expectedYCommitment kc =>
             m <- multiply (snd kc) (Z.rem (index ^ Z.of_nat (fst kc)) Q) ;;
             add expectedYCommitment m)
          (combine (seq 0 (length coefficientCommitments)) coefficientCommitments)
          infinity.

Definition verifyShare (p : t) (share : Z) (coefficientCommitments : list Point)
    (threshold : Z) : result bool :=
  if negb (Z.of_nat (length coefficientCommitments) =? threshold)
  then Err CommitmentCountMismatch
  else
    expectedShare <- derivePublicVerificationShare coefficientCommitments
                                                   (index p) threshold ;;
    gs <- multiply G share ;;
    Ok (equals gs expectedShare).

Definition aggregateShares (otherShares : list Z) : M unit :=
  p <~ this ;;
  match shares p with
  | None => throw SharesNotInitialized
  | Some ss =>
      if (index p - 1 <? 0) || (index p - 1 >=? Z.of_nat (length ss))
      then throw IndexOutOfRange
      else if negb (Z.of_nat (length otherShares) =? participants p - 1)
      then throw WrongShareCount
      else
        own <~ lift (getIndex ss (Z.to_nat (index p - 1))) ;;
        let aggregateShare :=
          fold_left (fun a otherShare => Z.rem (a + otherShare) Q) otherShares own in
        match Participant.aggregateShare p with
        | Some old => assign (set_aggregateShare (Some (Z.rem (old + aggregateShare) Q)))
        | None => assign (set_aggregateShare (Some aggregateShare))
        end
  end.

(** [!this.aggregateShare] is true for [null] and for [0n].  The read
    [this.shares[this.index - 1]!] has no range guard: outside the array
    (a negative position included) it gives [undefined], and the sum with
    a bigint raises a TypeError. *)
Definition increaseThreshold (otherShares : list Z) : M unit :=
  p <~ this ;;
  match shares p with
  | None => throw SharesNotInitialized
  | Some ss =>
      match aggregateShare p with
      | None | Some 0 => throw AggregateShareNotInitialized
      | Some old =>
          own <~ lift (if index p - 1 <? 0 then Err TypeError
                       else getIndex ss (Z.to_nat (index p - 1))) ;;
          let aggregateShare :=
            Z.rem (own + fold_left (fun a b => a + b) otherShares 0) Q in
          assign (set_aggregateShare
                    (Some (Z.rem (old + aggregateShare * index p) Q)))
      end
  end.

Definition publicVerificationShare (p : t) : result Point :=
  match aggregateShare p with
  | None => Err AggregateShareNotInitialized
  | Some s => multiply G s
  end.

Definition derivePublicKey (otherSecretCommitments : list Point) : M Point :=
  p <~ this ;;
  match coefficientCommitments p with
  | None | Some [] => throw CommitmentsNotInitialized
  | Some (c0 :: _) =>
      publicKey <~ lift (foldM add otherSecretCommitments c0) ;;
      assign (set_publicKey (Some publicKey)) ;;;
      ret publicKey
  end.

(** [sum.add(commitments[i]!)] with [commitments[i]] undefined fails the
    [instanceof Point] test of [add]. *)
Definition getPoint (l : list Point) (i : nat) : result Point :=
  match nth_error l i with
  | Some a => Ok a
  | None => Err NotAPoint
  end.

Definition deriveGroupCommitments (otherCoefficientCommitments : list (list Point))
  : M unit :=
  p <~ this ;;
  match coefficientCommitments p with
  | None | Some [] => throw CommitmentsNotInitialized
  | Some mine =>
      first <~ lift (getIndex otherCoefficientCommitments 0) ;;
      groupCommitments <~
        lift (mapM (fun i =>
                      s <- foldM (fun sum commitments =>
                                    c <- getPoint commitments i ;; add sum c)
                                 otherCoefficientCommitments infinity ;;
                      c <- getPoint mine i ;;
                      add s c)
                   (seq 0 (length first))) ;;
      match Participant.groupCommitments p with
      | Some old =>
          updated <~ lift (mapM (fun ic =>
                                   c <- getPoint groupCommitments (fst ic) ;;
                                   add (snd ic) c)
                                (combine (seq 0 (length old)) old)) ;;
          assign (set_groupCommitments (Some updated))
      | None => assign (set_groupCommitments (Some groupCommitments))
      end
  end.

(** *** Signing *)

(** [random0], [random1]: the two draws
    [BigInt(Math.floor(Math.random() * Number(Q)))]. *)
Definition generateNoncePair (random0 random1 : Z) : M unit :=
  d <~ lift (multiply G random0) ;;
  e <~ lift (multiply G random1) ;;
  assign (set_nonces (Some (random0, random1)) (Some (d, e))).

(** [!v] for a bigint-or-null [v]. *)
Definition falsy (v : option Z) : bool :=
  match v with
  | None | Some 0 => true
  | _ => false
  end.

Definition sign (p : t) (message : list byte)
    (nonceCommitmentPairs : list (Point * Point)) (participantIndexes : list Z)
    (bip32Tweak taprootTweak : option Z) : result Z :=
  match noncePair p with
  | None => Err NoncePairNotInitialized
  | Some (firstNonce0, secondNonce0) =>
  match publicKey p with
  | None => Err PublicKeyNotInitialized
  | Some thisPublicKey =>
  if falsy (px thisPublicKey) || falsy (py thisPublicKey)
  then Err PublicKeyAtInfinity
  else
  match aggregateShare p with
  | None => Err AggregateShareNotInitialized
  | Some aggregateShare0 =>
      gc <- Aggregator.groupCommitment message nonceCommitmentPairs
                                       participantIndexes ;;
      '(publicKey, parity) <-
         match bip32Tweak, taprootTweak with
         | Some b, Some t => Aggregator.tweakKey b t thisPublicKey
         | _, _ => Ok (thisPublicKey, 0)
         end ;;
      challengeHash <- Aggregator.challengeHash gc publicKey message ;;
      gcy <- match py gc with Some y => Ok y | None => Err TypeError end ;;
      let odd := negb (Z.rem gcy 2 =? 0) in
      let firstNonce := if odd then Q - firstNonce0 else firstNonce0 in
      let secondNonce := if odd then Q - secondNonce0 else secondNonce0 in
      bindingValue <- Aggregator.bindingValue (index p) message
                                              nonceCommitmentPairs
                                              participantIndexes ;;
      lagrangeCoefficient <- _lagrangeCoefficient participantIndexes 0 (index p) ;;
      match py publicKey with
      | None => Err PublicKeyAtInfinity
      | Some y =>
          let aggregateShare :=
            if negb (Z.rem y 2 =? parity) then Q - aggregateShare0
            else aggregateShare0 in
          Ok (Z.rem (firstNonce + secondNonce * bindingValue
                     + lagrangeCoefficient * aggregateShare * challengeHash) Q)
      end
  end end end.

Definition deriveCoefficientCommitments (publicVerificationShares : list Point)
    (participantIndexes : list Z) : result (list Point) :=
  if negb (length publicVerificationShares =? length participantIndexes)%nat
  then Err CommitmentCountMismatch
  else
    let A := Matrix.createVandermonde participantIndexes in
    AInv <- Matrix.inverseMatrix A ;;
    let Y := map (fun share => [share]) publicVerificationShares in
    coefficients <- Matrix.multPointMatrix AInv Y ;;
    mapM (fun coeff => getIndex coeff 0) coefficients.

End Participant.

(** ** Running a method, and the inputs of the evaluated scenarios *)

Definition run {A : Type} (m : Participant.M A) (p : Participant.t)
  : result (Participant.t * A) :=
  match m p with
  | (p', Ok a) => Ok (p', a)
  | (_, Err e) => Err e
  end.

Definition fromSome {A : Type} (o : option A) : result A :=
  match o with
  | Some a => Ok a
  | None => Err TypeError
  end.

(** [2 * G]. *)
Definition G2 : Point :=
  mkPoint (Some 0xc6047f9441ed7d6d3045406e95c07cd85c778e4b8cef3ca7abac09b95c709ee5)
          (Some 0x1ae168fea63dc339a3c58419466ceaeef7f632653266d0e1236431a950cfe52a).

(** A participant that holds the aggregate share [s] in a 2-of-3 group. *)
Definition holder (i s : Z) : Participant.t :=
  Participant.set_aggregateShare (Some s) (Participant.new i 2 3).

(** The repair of participant 2 by the helpers 1 and 3, as the test
    scenario of the specification runs it: each helper names the other one
    as its repair committee, the two exchange their repair shares, and
    participant 2 sums the two aggregates. *)
Definition repairScenario (s1 s3 r1 r3 : Z) : result (option Z) :=
  '(h1, _) <- run (Participant.generateRepairShares (fun _ => r1) [3] 2) (holder 1 s1) ;;
  '(h3, _) <- run (Participant.generateRepairShares (fun _ => r3) [1] 2) (holder 3 s3) ;;
  s13 <- bind (Participant.getRepairShare h1 3) fromSome ;;
  s31 <- bind (Participant.getRepairShare h3 1) fromSome ;;
  '(h1', _) <- run (Participant.aggregateRepairShares [s31]) h1 ;;
  '(h3', _) <- run (Participant.aggregateRepairShares [s13]) h3 ;;
  a1 <- fromSome (Participant.aggregateRepairShare h1') ;;
  a3 <- fromSome (Participant.aggregateRepairShare h3') ;;
  '(p2, _) <- run (Participant.repairShare [a1; a3]) (Participant.new 2 2 3) ;;
  Ok (Participant.aggregateShare p2).

(** The master polynomial [8 - 6 X] of the repair scenario. *)
Definition masterPolynomial : Participant.t :=
  Participant.set_coefficients (Some [8; Q - 6]) (Participant.new 1 2 3).

(** The tweaked key of [2 * G] under the tweaks 7 and 3. *)
Definition tweakedG2 : Point :=
  mkPoint (Some 115780575977492633039504758427830329241728645270042306223540962614150928364886)
          (Some 37057025721515809211679672464182131982009266967775367602652617524301408111000).

Definition fnord : list byte := bytes_of_string "fnord!".

(** A one-signer session with the nonces 1 and 2 and the tweaks 7 and 3. *)
Definition tweakedSession : Aggregator.t :=
  Aggregator.mk G2 fnord [(G, G2)] [1] (Some tweakedG2) (Some (-4)).

Definition tweakedSessionCommitment : Point :=
  mkPoint (Some 99454844646610592366777983232870096614406457398294530600068609587823282745726)
          (Some 1337826166840912004651177393571811420628659486551065601948842573333691505414).

Definition tweakedSessionChallenge : Z :=
  90732460077703124917362648485155853724949561159183492134594887893858367990855.

(** The products of the Lagrange formula, as the specification writes them. *)
Definition others (S : list Z) (i : Z) : list Z :=
  filter (fun j => negb (j =? i)) S.
Definition product (l : list Z) : Z := fold_right Z.mul 1 l.
Definition lagrangeNumerator (S : list Z) (x i : Z) : Z :=
  product (map (fun j => x - j) (others S i)).
Definition lagrangeDenominator (S : list Z) (i : Z) : Z :=
  product (map (fun j => i - j) (others S i)).

(** The SEC1 bytes of an affine point. *)
Definition SEC1 (p : Point) : list byte :=
  match secSerialize p with
  | Ok b => b
  | Err _ => []
  end.

Definition affine (p : Point) : Prop := isInfinity p = false.

Definition pairAt (pairs : list (Point * Point)) (idx : Z) : Point * Point :=
  nth (Z.to_nat (idx - 1)) pairs (infinity, infinity).

Definition inRange (pairs : list (Point * Point)) (idx : Z) : Prop :=
  1 <= idx <= Z.of_nat (length pairs).

Definition pairSerializable (pairs : list (Point * Point)) (idx : Z) : Prop :=
  inRange pairs idx -> affine (fst (pairAt pairs idx)) /\ affine (snd (pairAt pairs idx)).

Definition pairAffine (pairs : list (Point * Point)) (idx : Z) : Prop :=
  affine (fst (pairAt pairs idx)) /\ affine (snd (pairAt pairs idx)).

(** An entry of the index list that [bindingValue] can serialize. *)
Definition usable (pairs : list (Point * Point)) (idx : Z) : Prop :=
  inRange pairs idx /\ pairAffine pairs idx.

Definition pairsBytes (pairs : list (Point * Point)) (indexes : list Z) : list byte :=
  flat_map (fun idx => SEC1 (fst (pairAt pairs idx)) ++ SEC1 (snd (pairAt pairs idx)))
           indexes.

(** ** Primality certificates *)

(** Trial division by [d], [d + 1], ... up to the square root. *)
Fixpoint noDivisorFrom (fuel : nat) (d n : Z) : bool :=
  match fuel with
  | O => false
  | S fuel' =>
      if n <? d * d then true
      else if n mod d =? 0 then false
      else noDivisorFrom fuel' (d + 1) n
  end.

Definition trialPrime (n : Z) : bool :=
  (1 <? n) && noDivisorFrom (Z.to_nat (Z.sqrt n)) 2 n.

(** One Pocklington test: [q] divides [N - 1], and the witness [a] has
    [a^(N-1) = 1] and [a^((N-1)/q) - 1] invertible mod [N]. *)
Definition pocklingtonItem (N : Z) (qa : Z * Z) : bool :=
  let '(q, a) := qa in
  (0 <=? a) && ((N - 1) mod q =? 0) && (pow a (N - 1) N =? 1)
  && (Z.gcd (pow a ((N - 1) / q) N - 1) N =? 1).

Definition pocklingtonCheck (N : Z) (qas : list (Z * Z)) : bool :=
  (1 <? N) && forallb (pocklingtonItem N) qas
  && negb (Participant.hasDuplicate (map fst qas))
  && (N <? product (map fst qas) * product (map fst qas)).

(** * Properties *)

(** ** The monads *)

Lemma bind_Ok {A B : Type} (r : result A) (k : A -> result B) (b : B) :
  bind r k = Ok b -> exists a, r = Ok a /\ k a = Ok b.
Proof. destruct r as [a|e]; simpl; intros H; [eauto | discriminate]. Qed.

Lemma mapM_length {A B : Type} (f : A -> result B) (l : list A) (bs : list B) :
  mapM f l = Ok bs -> length bs = length l.
Proof.
  revert bs; induction l as [|a l IH]; simpl; intros bs H.
  - inversion H; reflexivity.
  - destruct (f a) as [b|]; simpl in H; [|discriminate].
    destruct (mapM f l) as [bs'|]; simpl in H; [|discriminate].
    inversion H; subst; simpl; f_equal; auto.
Qed.

Lemma mapM_ext_Ok {A B : Type} (f : A -> result B) (g : A -> B) (l : list A) :
  Forall (fun a => f a = Ok (g a)) l -> mapM f l = Ok (map g l).
Proof.
  induction 1 as [|a l Ha _ IH]; simpl; [reflexivity|].
  rewrite Ha, IH; reflexivity.
Qed.

(** ** Truncated remainders *)

Lemma Q_pos : 0 < Q.
Proof. reflexivity. Qed.

Lemma P_pos : 0 < P.
Proof. reflexivity. Qed.

Lemma rem_range (a m : Z) : 0 < m -> - m < Z.rem a m < m.
Proof.
  intros Hm. pose proof (Z.rem_bound_abs a m). lia.
Qed.

Lemma rem_mod (a m : Z) : 0 < m -> Z.rem a m mod m = a mod m.
Proof.
  intros Hm. rewrite (Z.quot_rem' a m) at 2.
  rewrite Z.add_comm, Z.mul_comm, Z.mod_add by lia. reflexivity.
Qed.

Lemma rem_nonneg (a m : Z) : 0 <= a -> 0 < m -> Z.rem a m = a mod m.
Proof. intros. apply Z.rem_mod_nonneg; lia. Qed.

Lemma mod__mod (a m : Z) : 0 < m -> mod_ a m = a mod m.
Proof.
  intros Hm. unfold mod_.
  pose proof (rem_range a m Hm).
  rewrite rem_nonneg by lia.
  rewrite Zplus_mod, Z_mod_same_full, Z.add_0_r, Z.mod_mod by lia.
  apply rem_mod; assumption.
Qed.

(** ** Buffers *)

Lemma Z_of_byte_range (b : byte) : 0 <= Z_of_byte b < 256.
Proof.
  unfold Z_of_byte. pose proof (Byte.to_N_bounded b). lia.
Qed.

Lemma Z_of_byte_of_Z (z : Z) : Z_of_byte (byte_of_Z z) = z mod 256.
Proof.
  unfold Z_of_byte, byte_of_Z.
  pose proof (Z.mod_pos_bound z 256 ltac:(lia)) as Hr.
  destruct (Byte.of_N (Z.to_N (z mod 256))) as [b|] eqn:E.
  - apply Byte.to_of_N in E. rewrite E. lia.
  - apply Byte.of_N_None_iff in E. lia.
Qed.

Lemma byte_of_Z_of_byte (b : byte) : byte_of_Z (Z_of_byte b) = b.
Proof.
  unfold byte_of_Z, Z_of_byte.
  pose proof (Byte.to_N_bounded b).
  rewrite Z.mod_small by lia. rewrite N2Z.id, Byte.of_to_N. reflexivity.
Qed.

Lemma bytes_to_Z_acc (bs : list byte) (acc : Z) :
  fold_left (fun a b => a * 256 + Z_of_byte b) bs acc
  = acc * 256 ^ Z.of_nat (length bs) + bytes_to_Z bs.
Proof.
  unfold bytes_to_Z. revert acc.
  induction bs as [|b bs IH]; intros acc.
  - simpl. lia.
  - cbn [fold_left length]. rewrite IH, (IH (0 * 256 + Z_of_byte b)).
    rewrite Nat2Z.inj_succ, Z.pow_succ_r by lia. lia.
Qed.

Lemma bytes_to_Z_cons (b : byte) (bs : list byte) :
  bytes_to_Z (b :: bs) = Z_of_byte b * 256 ^ Z.of_nat (length bs) + bytes_to_Z bs.
Proof.
  unfold bytes_to_Z at 1. cbn [fold_left]. rewrite bytes_to_Z_acc. lia.
Qed.

Lemma bytes_to_Z_range (bs : list byte) :
  0 <= bytes_to_Z bs < 256 ^ Z.of_nat (length bs).
Proof.
  induction bs as [|b bs IH].
  - cbv. split; [discriminate | reflexivity].
  - rewrite bytes_to_Z_cons. cbn [length].
    rewrite Nat2Z.inj_succ, Z.pow_succ_r by lia.
    pose proof (Z_of_byte_range b). nia.
Qed.

Lemma bytes_to_Z_app (xs ys : list byte) :
  bytes_to_Z (xs ++ ys) = bytes_to_Z xs * 256 ^ Z.of_nat (length ys) + bytes_to_Z ys.
Proof.
  unfold bytes_to_Z at 1. rewrite fold_left_app.
  fold (bytes_to_Z xs). apply bytes_to_Z_acc.
Qed.

Lemma be_bytes_length (n : nat) (x : Z) : length (be_bytes n x) = n.
Proof.
  revert x; induction n as [|n IH]; intros x; simpl; [reflexivity|].
  rewrite length_app, IH. simpl. lia.
Qed.

Lemma bytes_to_Z_be_bytes (n : nat) (x : Z) :
  bytes_to_Z (be_bytes n x) = x mod 256 ^ Z.of_nat n.
Proof.
  revert x; induction n as [|n IH]; intros x.
  - simpl. rewrite Z.mod_1_r. reflexivity.
  - cbn [be_bytes]. rewrite bytes_to_Z_app, IH.
    cbn [length]. change (256 ^ Z.of_nat 1) with 256.
    unfold bytes_to_Z at 1. cbn [fold_left].
    rewrite Z_of_byte_of_Z.
    change 255 with (Z.ones 8). rewrite Z.land_ones, Z.shiftr_div_pow2 by lia.
    change (2 ^ 8) with 256. rewrite Z.mod_mod by lia.
    rewrite Nat2Z.inj_succ, Z.pow_succ_r by lia.
    rewrite Z.rem_mul_r by lia. lia.
Qed.

(** ** Modular exponentiation *)

Lemma rem_pow_mod (a e m : Z) : 0 < m -> Z.rem a m ^ e mod m = a ^ e mod m.
Proof.
  intros Hm. rewrite <- Z.mod_pow_l, rem_mod, Z.mod_pow_l by lia. reflexivity.
Qed.

Lemma rem_mul_mod (a b m : Z) : 0 < m -> (Z.rem a m * b) mod m = (a * b) mod m.
Proof.
  intros Hm. rewrite Zmult_mod, rem_mod, <- Zmult_mod by lia. reflexivity.
Qed.

Lemma pow_loop_mod (e : positive) (r b m : Z) :
  0 < m -> pow_loop e r b m mod m = (r * b ^ Zpos e) mod m.
Proof.
  intros Hm. revert r b.
  induction e as [e IH|e IH|]; intros r b; cbn [pow_loop].
  - rewrite IH, rem_mul_mod by lia.
    rewrite Zmult_mod, rem_pow_mod, <- Zmult_mod by lia.
    f_equal. rewrite Pos2Z.inj_xI, Z.pow_add_r, Z.pow_mul_r, Z.pow_2_r by lia. ring.
  - rewrite IH. rewrite Zmult_mod, rem_pow_mod, <- Zmult_mod by lia.
    f_equal. rewrite Pos2Z.inj_xO, Z.pow_mul_r, Z.pow_2_r by lia. ring.
  - rewrite rem_mod by lia. rewrite Z.pow_1_r. reflexivity.
Qed.

Lemma pow_loop_range (e : positive) (r b m : Z) :
  0 < m -> - m < pow_loop e r b m < m.
Proof.
  intros Hm. revert r b.
  induction e as [e IH|e IH|]; intros r b; cbn [pow_loop]; auto using rem_range.
Qed.

Lemma pow_loop_nonneg (e : positive) (r b m : Z) :
  0 < m -> 0 <= r -> 0 <= b -> 0 <= pow_loop e r b m.
Proof.
  intros Hm. revert r b.
  induction e as [e IH|e IH|]; intros r b Hr Hb; cbn [pow_loop].
  - apply IH; apply Z.rem_nonneg; nia.
  - apply IH; [assumption | apply Z.rem_nonneg; nia].
  - apply Z.rem_nonneg; nia.
Qed.

(** [pow] is congruent to the power; it keeps the sign conventions of [%]. *)
Lemma pow_mod (b e m : Z) :
  1 < m -> 0 <= e -> pow b e m mod m = b ^ e mod m.
Proof.
  intros Hm He. unfold pow.
  destruct (Z.eqb_spec m 1) as [->|_]; [lia|].
  destruct e as [|e|e]; [reflexivity| |lia].
  rewrite pow_loop_mod by lia. rewrite Z.mul_1_l.
  apply rem_pow_mod; lia.
Qed.

Lemma pow_range (b e m : Z) : 1 < m -> - m < pow b e m < m.
Proof.
  intros Hm. unfold pow.
  destruct (Z.eqb_spec m 1) as [->|_]; [lia|].
  destruct e as [|e|e]; try lia.
  apply pow_loop_range; lia.
Qed.

(** For a non-negative base the result is the canonical residue. *)
Lemma pow_spec (b e m : Z) :
  1 < m -> 0 <= b -> 0 <= e -> pow b e m = b ^ e mod m.
Proof.
  intros Hm Hb He.
  rewrite <- pow_mod by assumption.
  symmetry; apply Z.mod_small.
  pose proof (pow_range b e m Hm).
  enough (0 <= pow b e m) by lia.
  unfold pow. destruct (Z.eqb_spec m 1); [lia|].
  destruct e; try lia.
  apply pow_loop_nonneg; try lia. apply Z.rem_nonneg; lia.
Qed.

(** ** The modular inverse *)

Lemma modInverse_loop_spec (A m : Z) (n : nat) :
  forall oldR r oldS s : Z,
    0 <= r < oldR -> r * oldR < 2 ^ Z.of_nat n ->
    (m | oldS * A - oldR) -> (m | s * A - r) ->
    exists u : Z,
      modInverse_loop (S n) oldR r oldS s = Some (Z.gcd oldR r, u)
      /\ (m | u * A - Z.gcd oldR r).
Proof.
  induction n as [|n IH]; intros oldR r oldS s Hr Hp HoldS Hs.
  - assert (r = 0) by (change (2 ^ Z.of_nat 0) with 1 in Hp; nia). subst r.
    exists oldS. cbn [modInverse_loop Z.eqb].
    rewrite Z.gcd_0_r, Z.abs_eq by lia. auto.
  - cbn [modInverse_loop]. destruct (Z.eqb_spec r 0) as [->|Hr0].
    + exists oldS. rewrite Z.gcd_0_r, Z.abs_eq by lia. auto.
    + rewrite Z.quot_div_nonneg by lia.
      assert (Hmod : oldR - oldR / r * r = oldR mod r)
        by (rewrite (Z.div_mod oldR r) at 1 by lia; lia).
      rewrite Hmod.
      pose proof (Z.mod_pos_bound oldR r ltac:(lia)) as Hb.
      assert (Hq : 1 <= oldR / r) by (apply Z.div_le_lower_bound; lia).
      destruct (IH r (oldR mod r) s (oldS - oldR / r * s)) as [u [Hu Hd]].
      * lia.
      * rewrite Nat2Z.inj_succ, Z.pow_succ_r in Hp by lia.
        assert (2 * (oldR mod r) <= oldR) by (rewrite <- Hmod; nia).
        nia.
      * assumption.
      * replace ((oldS - oldR / r * s) * A - oldR mod r)
          with ((oldS * A - oldR) - oldR / r * (s * A - r)) by (rewrite <- Hmod; ring).
        apply Z.divide_sub_r; [assumption | apply Z.divide_mul_r; assumption].
      * exists u. rewrite Z.gcd_comm, Z.gcd_mod, Z.gcd_comm in Hu by lia.
        rewrite Z.gcd_comm, Z.gcd_mod, Z.gcd_comm in Hd by lia.
        destruct n; auto.
Qed.

Lemma modInverse_loop_step (fuel : nat) (oldR r oldS s : Z) :
  modInverse_loop (S fuel) oldR r oldS s
  = if r =? 0 then Some (oldR, oldS)
    else modInverse_loop fuel r (oldR - Z.quot oldR r * r) s (oldS - Z.quot oldR r * s).
Proof. reflexivity. Qed.

Lemma modInverse_run (a m : Z) :
  1 < m ->
  exists u : Z,
    modInverse_loop (modInverse_fuel m) (mod_ a m) m 1 0 = Some (Z.gcd a m, u)
    /\ (m | u * a - Z.gcd a m).
Proof.
  intros Hm. rewrite mod__mod by lia.
  pose proof (Z.mod_pos_bound a m ltac:(lia)) as Hb.
  unfold modInverse_fuel. rewrite modInverse_loop_step.
  destruct (Z.eqb_spec m 0); [lia|].
  rewrite Z.quot_small by exact Hb. rewrite !Z.mul_0_l, !Z.sub_0_r.
  destruct (modInverse_loop_spec (a mod m) m (2 * Z.to_nat (Z.log2_up m))
              m (a mod m) 0 1) as [u [Hu Hd]].
  - lia.
  - rewrite Nat2Z.inj_mul, Z2Nat.id by apply Z.log2_up_nonneg.
    change (Z.of_nat 2) with 2.
    rewrite (Z.mul_comm 2), Z.pow_mul_r, Z.pow_2_r by
      (try apply Z.log2_up_nonneg; lia).
    pose proof (Z.log2_up_spec m Hm). nia.
  - rewrite Z.mul_0_l, Z.sub_0_l. apply Z.divide_opp_r, Z.divide_refl.
  - rewrite Z.mul_1_l, Z.sub_diag. apply Z.divide_0_r.
  - exists u. rewrite Z.gcd_comm, Z.gcd_mod in Hu by lia.
    rewrite Z.gcd_comm, Z.gcd_mod in Hd by lia.
    rewrite (Z.gcd_comm m a) in *. split; [exact Hu|].
    assert (E : u * a - Z.gcd a m
                = (u * (a mod m) - Z.gcd a m) + m * (u * (a / m))).
    { replace (u * a) with (u * (m * (a / m) + a mod m))
        by (f_equal; symmetry; apply Z.div_mod; lia).
      ring. }
    rewrite E. apply Z.divide_add_r; [assumption | apply Z.divide_factor_l].
Qed.

(** [modInverse] returns the inverse residue when there is one, and throws
    otherwise; the loop bound is never reached. *)
Lemma modInverse_spec (a m : Z) :
  1 < m -> Z.gcd a m = 1 ->
  exists i : Z, modInverse a m = Ok i /\ 0 <= i < m /\ (a * i) mod m = 1.
Proof.
  intros Hm Hg. destruct (modInverse_run a m Hm) as [u [Hu Hd]].
  unfold modInverse. rewrite Hu, Hg. cbn.
  exists (mod_ u m). split; [reflexivity|].
  rewrite mod__mod by lia. split; [apply Z.mod_pos_bound; lia|].
  rewrite Z.mul_mod_idemp_r by lia. rewrite Hg in Hd.
  destruct Hd as [k Hk].
  replace (a * u) with (1 + k * m) by lia.
  rewrite Z.mod_add by lia. apply Z.mod_small; lia.
Qed.

Lemma modInverse_none (a m : Z) :
  1 < m -> Z.gcd a m <> 1 -> modInverse a m = Err NoInverse.
Proof.
  intros Hm Hg. destruct (modInverse_run a m Hm) as [u [Hu Hd]].
  unfold modInverse. rewrite Hu.
  pose proof (Z.gcd_nonneg a m).
  assert (Z.gcd a m <> 0) by (intros E; apply Z.gcd_eq_0_r in E; lia).
  destruct (Z.gtb_spec (Z.gcd a m) 1); [reflexivity | lia].
Qed.

Lemma inverse_unique (a i j m : Z) :
  1 < m -> 0 <= i < m -> 0 <= j < m ->
  (a * i) mod m = 1 -> (a * j) mod m = 1 -> i = j.
Proof.
  intros Hm Hi Hj Hai Haj.
  rewrite <- (Z.mod_small i m), <- (Z.mod_small j m) by lia.
  rewrite <- (Z.mul_1_r i), <- (Z.mul_1_r j).
  rewrite <- (Z.mul_mod_idemp_r i 1), <- (Z.mul_mod_idemp_r j 1) by lia.
  rewrite <- Haj at 1. rewrite <- Hai.
  rewrite !Z.mul_mod_idemp_r by lia. f_equal. ring.
Qed.

Lemma modInverse_check (a i m : Z) :
  1 < m -> 0 <= i < m -> (a * i) mod m = 1 -> modInverse a m = Ok i.
Proof.
  intros Hm Hi Hai.
  assert (Hg : Z.gcd a m = 1).
  { apply Z.bezout_1_gcd. exists i, (- ((a * i) / m)).
    pose proof (Z.div_mod (a * i) m ltac:(lia)). lia. }
  destruct (modInverse_spec a m Hm Hg) as [j [Hj [Hr Haj]]].
  rewrite Hj. f_equal. eapply inverse_unique; eauto.
Qed.

(** ** Primality of the field prime and of the group order *)

Lemma noDivisorFrom_sound (fuel : nat) :
  forall d n k : Z,
    1 < d -> noDivisorFrom fuel d n = true ->
    d <= k -> k * k <= n -> ~ (k | n).
Proof.
  induction fuel as [|fuel IH]; intros d n k Hd Hc Hk Hkk; [discriminate|].
  cbn [noDivisorFrom] in Hc.
  destruct (Z.ltb_spec n (d * d)); [nia|].
  destruct (Z.eqb_spec (n mod d) 0) as [|Hnd]; [discriminate|].
  destruct (Z.eq_dec k d) as [->|Hne].
  - intros Hdiv. apply Hnd. apply Z.mod_divide; [lia | assumption].
  - apply (IH (d + 1) n k); try assumption; lia.
Qed.

Lemma trialPrime_sound (n : Z) : trialPrime n = true -> Z.prime n.
Proof.
  unfold trialPrime. intros H. apply andb_prop in H. destruct H as [H1 H2].
  apply Z.ltb_lt in H1. split; [assumption|].
  intros k Hk [j Hj].
  assert (Hjpos : 1 < j < n) by nia.
  destruct (Z_le_gt_dec k j).
  - apply (noDivisorFrom_sound _ 2 n k ltac:(lia) H2); [lia | nia | exists j; assumption].
  - apply (noDivisorFrom_sound _ 2 n j ltac:(lia) H2); [lia | nia | exists k; lia].
Qed.

Lemma prime_divisor (n : Z) : 1 < n -> exists p : Z, Z.prime p /\ (p | n).
Proof.
  assert (H : forall (k : nat) (n : Z),
             1 < n <= Z.of_nat k -> exists p : Z, Z.prime p /\ (p | n)).
  { induction k as [|k IH]; intros m Hm; [lia|].
    destruct (prime_dec m) as [Hp|Hnp].
    - exists m. split; [apply prime_alt; assumption | apply Z.divide_refl].
    - destruct (not_prime_divide m ltac:(lia) Hnp) as [d [Hd Hdiv]].
      destruct (IH d ltac:(lia)) as [p [Hp Hpd]].
      exists p. split; [assumption | eapply Z.divide_trans; eassumption]. }
  intros Hn. apply (H (Z.to_nat n)). lia.
Qed.

Lemma small_prime_divisor (n : Z) :
  1 < n -> ~ Z.prime n -> exists p : Z, Z.prime p /\ (p | n) /\ p * p <= n.
Proof.
  intros Hn Hnp.
  destruct (not_prime_divide n Hn) as [d [Hd [e He]]].
  { intros H. apply Hnp, prime_alt. assumption. }
  assert (He' : 1 < e < n) by nia.
  assert (Hsmall : exists c, 1 < c /\ (c | n) /\ c * c <= n).
  { destruct (Z_le_gt_dec d e).
    - exists d. split; [lia|]. split; [exists e; exact He | nia].
    - exists e. split; [lia|]. split; [exists d; rewrite He; apply Z.mul_comm | nia]. }
  destruct Hsmall as [c [Hc [Hcn Hcc]]].
  destruct (prime_divisor c Hc) as [p [Hp Hpc]].
  exists p. split; [assumption|]. split; [eapply Z.divide_trans; eassumption|].
  pose proof (Z.prime_ge_2 p Hp).
  assert (p <= c) by (apply Z.divide_pos_le; [lia | assumption]).
  nia.
Qed.

(** In the unit group of a prime [p]: the powers of the class of [a]. *)
Section UnitPowers.
Variables (p a : Z).
Hypothesis Hp : Z.prime p.
Hypothesis Ha : a mod p <> 0.

Let x : Zstar p := Zstar.of_Zmod (Zmod.of_Z p a).

Lemma unit_coprime : Z.coprime (Zmod.to_Z (Zmod.of_Z p a)) p.
Proof.
  pose proof (Z.prime_ge_2 p Hp).
  rewrite Zmod.to_Z_of_Z. unfold Z.coprime. rewrite Z.gcd_comm.
  apply Z.coprime_prime_small; [assumption|].
  pose proof (Z.mod_pos_bound a p ltac:(lia)). lia.
Qed.

Lemma unit_pow_one (k : Z) :
  0 <= k -> (Zstar.pow x k = Zstar.one <-> a ^ k mod p = 1).
Proof.
  intros Hk. pose proof (Z.prime_ge_2 p Hp).
  rewrite <- Zstar.to_Zmod_inj_iff, Zstar.to_Zmod_pow, Zstar.to_Zmod_1.
  unfold x. rewrite Zstar.to_Zmod_of_Zmod by apply unit_coprime.
  rewrite <- Zmod.of_Z_pow by assumption.
  rewrite <- Zmod.to_Z_inj_iff, Zmod.to_Z_of_Z, Zmod.to_Z_1_pos by lia.
  reflexivity.
Qed.

Lemma unit_pow_gcd (A B : Z) :
  Zstar.pow x A = Zstar.one -> Zstar.pow x B = Zstar.one ->
  Zstar.pow x (Z.gcd A B) = Zstar.one.
Proof.
  intros HA HB.
  destruct (Z.gcd_bezout A B _ eq_refl) as [u [v Huv]].
  rewrite <- Huv, Zstar.pow_add_r.
  rewrite (Z.mul_comm u), (Z.mul_comm v), !Zstar.pow_mul_r, HA, HB.
  rewrite !Zstar.pow_1_l. apply Zstar.mul_1_l.
Qed.

Lemma unit_pow_multiple (A B : Z) :
  Zstar.pow x A = Zstar.one -> (A | B) -> Zstar.pow x B = Zstar.one.
Proof.
  intros HA [c ->]. rewrite Z.mul_comm, Zstar.pow_mul_r, HA.
  apply Zstar.pow_1_l.
Qed.

(** The step of Pocklington's theorem. *)
Lemma pocklington_step (N q : Z) :
  1 < N -> Z.prime q -> (q | N - 1) ->
  a ^ (N - 1) mod p = 1 -> a ^ ((N - 1) / q) mod p <> 1 ->
  (q | p - 1).
Proof.
  intros HN Hq Hdiv H1 Hq1.
  pose proof (Z.prime_ge_2 q Hq) as Hq2.
  destruct (Z.BoolSpec_divide_nz q (p - 1) ltac:(lia)) as [Hd|Hnd]; [assumption|].
  exfalso. apply Hq1.
  assert (Hquot : 0 <= (N - 1) / q) by (apply Z.div_pos; lia).
  apply (unit_pow_one _ Hquot).
  apply (unit_pow_multiple (Z.gcd (N - 1) (p - 1))).
  - apply unit_pow_gcd.
    + apply unit_pow_one; [lia | assumption].
    + rewrite Z.sub_1_r. apply Zstar.fermat. assumption.
  - apply (Z.gauss _ q).
    + replace (q * ((N - 1) / q)) with (N - 1).
      * apply Z.gcd_divide_l.
      * destruct Hdiv as [c Hc]. rewrite Hc, Z.div_mul by lia. ring.
    + apply Z.gcd_unique; [lia | apply Z.divide_1_l | apply Z.divide_1_l |].
      intros g Hg1 Hg2.
      assert (Hgq : (g | p - 1)).
      { eapply Z.divide_trans; [exact Hg1 | apply Z.gcd_divide_r]. }
      assert (Hcop : Z.gcd q (p - 1) = 1).
      { apply Z.coprime_prime_l; assumption. }
      rewrite <- Hcop. apply Z.gcd_greatest; assumption.
Qed.
End UnitPowers.

Lemma hasDuplicate_false (l : list Z) :
  Participant.hasDuplicate l = false <-> NoDup l.
Proof.
  induction l as [|a l IH]; cbn [Participant.hasDuplicate].
  - split; [constructor | reflexivity].
  - rewrite orb_false_iff, IH. split.
    + intros [Hex Hnd]. constructor; [|assumption].
      intros Hin. apply Bool.not_true_iff_false in Hex. apply Hex.
      apply existsb_exists. exists a. split; [assumption | apply Z.eqb_refl].
    + intros Hnd. inversion Hnd as [|? ? Hnin Hnd']; subst. split; [|assumption].
      apply Bool.not_true_iff_false. intros Hex.
      apply existsb_exists in Hex. destruct Hex as [b [Hin Hb]].
      apply Z.eqb_eq in Hb. subst b. contradiction.
Qed.

Lemma prime_coprime_product (q : Z) (qs : list Z) :
  Z.prime q -> Forall Z.prime qs -> ~ In q qs -> Z.gcd q (product qs) = 1.
Proof.
  intros Hq Hqs Hnin. induction Hqs as [|r qs Hr Hqs IH]; cbn [product fold_right].
  - apply Z.gcd_1_r.
  - apply Z.coprime_mul_r.
    + apply Z.coprime_prime_l; [assumption|].
      intros Hdiv. apply Hnin. left. symmetry.
      apply Z.divide_prime_prime; assumption.
    + apply IH. intros Hin. apply Hnin. right. assumption.
Qed.

Lemma product_divides (qs : list Z) (M : Z) :
  NoDup qs -> Forall Z.prime qs -> Forall (fun q => (q | M)) qs -> (product qs | M).
Proof.
  intros Hnd. induction Hnd as [|q qs Hnin Hnd IH]; intros Hp Hd.
  - apply Z.divide_1_l.
  - inversion Hp as [|? ? Hq Hp']; subst. inversion Hd as [|? ? Hqd Hd']; subst.
    cbn [product fold_right]. fold (product qs).
    destruct (IH Hp' Hd') as [c Hc].
    assert (Hqc : (q | c)).
    { apply (Z.gauss _ (product qs)).
      - rewrite Z.mul_comm, <- Hc. assumption.
      - apply prime_coprime_product; assumption. }
    destruct Hqc as [c' ->]. exists c'. rewrite Hc. ring.
Qed.

Lemma pocklingtonItem_sound (N p : Z) (qa : Z * Z) :
  1 < N -> Z.prime p -> (p | N) -> Z.prime (fst qa) ->
  pocklingtonItem N qa = true -> (fst qa | p - 1).
Proof.
  intros HN Hp HpN Hq. destruct qa as [q a]. cbn [fst] in *.
  unfold pocklingtonItem. rewrite !andb_true_iff.
  intros [[[Ha Hdiv] H1] Hg].
  apply Z.leb_le in Ha. apply Z.eqb_eq in Hdiv, H1, Hg.
  pose proof (Z.prime_ge_2 p Hp) as Hp2. pose proof (Z.prime_ge_2 q Hq) as Hq2.
  assert (HqN : (q | N - 1)) by (apply Z.mod_divide; [lia | assumption]).
  assert (Hquot : 0 <= (N - 1) / q) by (apply Z.div_pos; lia).
  rewrite pow_spec in H1 by lia. rewrite pow_spec in Hg by lia.
  assert (H1p : a ^ (N - 1) mod p = 1).
  { rewrite <- (Z.mod_mod_divide _ N p HpN), H1. apply Z.mod_small; lia. }
  assert (Hap : a mod p <> 0).
  { intros Ha0. rewrite <- Z.mod_pow_l, Ha0, Z.pow_0_l, Z.mod_0_l in H1p by lia.
    discriminate. }
  apply (pocklington_step p a Hp Hap N q); try assumption.
  intros Hcontra.
  assert (Hdivp : (p | a ^ ((N - 1) / q) mod N - 1)).
  { apply Z.mod_divide; [lia|].
    rewrite Zminus_mod, (Z.mod_mod_divide _ N p HpN), Hcontra.
    rewrite (Z.mod_small 1 p) by lia. apply Z.mod_0_l; lia. }
  assert (Hone : (p | 1)) by (rewrite <- Hg; apply Z.gcd_greatest; assumption).
  apply Z.divide_1_r_nonneg in Hone; lia.
Qed.

(** Pocklington's criterion, for a product of distinct primes that exceeds
    the square root. *)
Theorem pocklington (N : Z) (qas : list (Z * Z)) :
  Forall Z.prime (map fst qas) -> pocklingtonCheck N qas = true -> Z.prime N.
Proof.
  intros Hq. unfold pocklingtonCheck. rewrite !andb_true_iff.
  intros [[[HN Hitems] Hnd] Hbig].
  apply Z.ltb_lt in HN, Hbig.
  apply negb_true_iff, hasDuplicate_false in Hnd.
  destruct (prime_dec N) as [Hp|Hnp]; [apply prime_alt; assumption|].
  exfalso.
  destruct (small_prime_divisor N HN) as [p [Hp [HpN Hpp]]].
  { intros H. apply Hnp, prime_alt. assumption. }
  pose proof (Z.prime_ge_2 p Hp) as Hp2.
  assert (Hdiv : (product (map fst qas) | p - 1)).
  { apply product_divides; [assumption | assumption |].
    rewrite Forall_map in *. rewrite forallb_forall in Hitems.
    rewrite Forall_forall in *. intros qa Hin.
    apply (pocklingtonItem_sound N); auto. }
  apply Z.absle_divide in Hdiv; [|lia]. nia.
Qed.
Lemma prime_1627771 : Z.prime 1627771.
Proof. apply trialPrime_sound. vm_cast_no_check (eq_refl true). Qed.

Lemma prime_297159362677 : Z.prime 297159362677.
Proof.
  apply (pocklington _ [(1627771, 2)]).
  - exact (Forall_cons _ prime_1627771 (Forall_nil _)).
  - vm_cast_no_check (eq_refl true).
Qed.

Lemma prime_28181 : Z.prime 28181.
Proof. apply trialPrime_sound. vm_cast_no_check (eq_refl true). Qed.

Lemma prime_545358713 : Z.prime 545358713.
Proof.
  apply (pocklington _ [(28181, 2)]).
  - exact (Forall_cons _ prime_28181 (Forall_nil _)).
  - vm_cast_no_check (eq_refl true).
Qed.

Lemma prime_29047611873442575647497758179 : Z.prime 29047611873442575647497758179.
Proof.
  apply (pocklington _ [(297159362677, 2); (545358713, 2)]).
  - exact (Forall_cons _ prime_297159362677 (Forall_cons _ prime_545358713 (Forall_nil _))).
  - vm_cast_no_check (eq_refl true).
Qed.

Lemma prime_341948486974166000522343609283189 : Z.prime 341948486974166000522343609283189.
Proof.
  apply (pocklington _ [(29047611873442575647497758179, 2)]).
  - exact (Forall_cons _ prime_29047611873442575647497758179 (Forall_nil _)).
  - vm_cast_no_check (eq_refl true).
Qed.

Lemma prime_44706919 : Z.prime 44706919.
Proof. apply trialPrime_sound. vm_cast_no_check (eq_refl true). Qed.

Lemma prime_120233 : Z.prime 120233.
Proof. apply trialPrime_sound. vm_cast_no_check (eq_refl true). Qed.

Lemma prime_174723607534414371449 : Z.prime 174723607534414371449.
Proof.
  apply (pocklington _ [(44706919, 2); (120233, 2)]).
  - exact (Forall_cons _ prime_44706919 (Forall_cons _ prime_120233 (Forall_nil _))).
  - vm_cast_no_check (eq_refl true).
Qed.

Lemma Q_prime_aux : Z.prime 115792089237316195423570985008687907852837564279074904382605163141518161494337.
Proof.
  apply (pocklington _ [(341948486974166000522343609283189, 2); (174723607534414371449, 2)]).
  - exact (Forall_cons _ prime_341948486974166000522343609283189 (Forall_cons _ prime_174723607534414371449 (Forall_nil _))).
  - vm_cast_no_check (eq_refl true).
Qed.

Lemma prime_107590001 : Z.prime 107590001.
Proof. apply trialPrime_sound. vm_cast_no_check (eq_refl true). Qed.

Lemma prime_7240687 : Z.prime 7240687.
Proof. apply trialPrime_sound. vm_cast_no_check (eq_refl true). Qed.

Lemma prime_96557 : Z.prime 96557.
Proof. apply trialPrime_sound. vm_cast_no_check (eq_refl true). Qed.

Lemma prime_255515944373312847190720520512484175977 : Z.prime 255515944373312847190720520512484175977.
Proof.
  apply (pocklington _ [(107590001, 2); (7240687, 2); (96557, 2)]).
  - exact (Forall_cons _ prime_107590001 (Forall_cons _ prime_7240687 (Forall_cons _ prime_96557 (Forall_nil _)))).
  - vm_cast_no_check (eq_refl true).
Qed.

Lemma prime_205115282021455665897114700593932402728804164701536103180137503955397371 : Z.prime 205115282021455665897114700593932402728804164701536103180137503955397371.
Proof.
  apply (pocklington _ [(255515944373312847190720520512484175977, 2)]).
  - exact (Forall_cons _ prime_255515944373312847190720520512484175977 (Forall_nil _)).
  - vm_cast_no_check (eq_refl true).
Qed.

Lemma P_prime_aux : Z.prime 115792089237316195423570985008687907853269984665640564039457584007908834671663.
Proof.
  apply (pocklington _ [(205115282021455665897114700593932402728804164701536103180137503955397371, 2)]).
  - exact (Forall_cons _ prime_205115282021455665897114700593932402728804164701536103180137503955397371 (Forall_nil _)).
  - vm_cast_no_check (eq_refl true).
Qed.

Theorem Q_prime : Z.prime Q.
Proof. exact Q_prime_aux. Qed.

Theorem P_prime : Z.prime P.
Proof. exact P_prime_aux. Qed.

(** ** Threshold increase *)

(** C10 (amended).  [increaseThreshold] tests its two preconditions in
    order and by truthiness.  A participant whose shares are null gets
    "shares have not been initialized", whatever its aggregate share is; a
    participant that holds its shares and whose aggregate share is the
    scalar 0 gets "aggregate share has not been initialized".  In both cases
    the participant is left as it was. *)
Theorem increaseThreshold_zero_share (p : Participant.t) (otherShares : list Z) :
  Participant.aggregateShare p = Some 0 ->
  (Participant.shares p = None ->
   Participant.increaseThreshold otherShares p = (p, Err SharesNotInitialized)) /\
  (forall ss : list Z, Participant.shares p = Some ss ->
   Participant.increaseThreshold otherShares p
   = (p, Err AggregateShareNotInitialized)).
Proof.
  intros Ha.
  unfold Participant.increaseThreshold, Participant.bindM, Participant.this.
  split.
  - intros Hs. rewrite Hs. reflexivity.
  - intros ss Hs. rewrite Hs, Ha. reflexivity.
Qed.

Lemma increaseThreshold_zero_share_witness :
  Participant.increaseThreshold [5]
    (Participant.set_shares (Some [1; 2; 3]) (holder 1 0))
  = (Participant.set_shares (Some [1; 2; 3]) (holder 1 0),
     Err AggregateShareNotInitialized).
Proof.
  apply (proj2 (increaseThreshold_zero_share
                  (Participant.set_shares (Some [1; 2; 3]) (holder 1 0)) [5]
                  eq_refl) [1; 2; 3]).
  reflexivity.
Defined.

(** C10 (counterexample).  A new participant 2 of a 2-of-3 group that
    repairs its share from the aggregates 5 and Q - 5 holds the aggregate
    share 0 and no shares; [increaseThreshold] then throws "shares have not
    been initialized", not the aggregate-share error. *)
Lemma increaseThreshold_zero_share_without_shares :
  exists p : Participant.t,
    Participant.repairShare [5; Q - 5] (Participant.new 2 2 3) = (p, Ok tt) /\
    Participant.aggregateShare p = Some 0 /\
    Participant.shares p = None /\
    Participant.increaseThreshold [] p = (p, Err SharesNotInitialized).
Proof.
  eexists. split; [vm_compute; reflexivity|].
  split; [reflexivity|]. split; reflexivity.
Qed.

(** ** Threshold decrease: the coefficient commitments of one share *)

Lemma multiply_zero (p : Point) : multiply p 0 = Ok infinity.
Proof. vm_compute. reflexivity. Qed.

(** C9.  On a single share the adjugate is built from the determinant of
    the empty matrix, which [determinant] computes as 0: the commitment
    returned is the point at infinity, whatever the share is. *)
Theorem deriveCoefficientCommitments_single (share : Point) (x : Z) :
  Participant.deriveCoefficientCommitments [share] [x] = Ok [infinity].
Proof.
  unfold Participant.deriveCoefficientCommitments.
  cbn [length Nat.eqb negb].
  assert (HA : Matrix.inverseMatrix (Matrix.createVandermonde [x]) = Ok [[0]]).
  { unfold Matrix.createVandermonde. cbn [length seq map].
    change (x ^ Z.of_nat 0) with 1. vm_compute. reflexivity. }
  rewrite HA. cbn [bind map].
  unfold Matrix.multPointMatrix. cbn -[multiply add].
  rewrite multiply_zero. reflexivity.
Qed.

(** ** Repair *)

(** C2.  In the 2-of-3 scenario with the master polynomial [8 - 6 X], the
    helpers 1 and 3 hold [f(1) = 2] and [f(3) = Q - 10]; the share that
    participant 2 rebuilds is congruent to 16, not to the lost
    [f(2) = Q - 4]. *)
Theorem repair_does_not_reconstruct :
  Participant.evaluatePolynomial masterPolynomial 1 = Ok 2 /\
  Participant.evaluatePolynomial masterPolynomial 2 = Ok (Q - 4) /\
  Participant.evaluatePolynomial masterPolynomial 3 = Ok (Q - 10) /\
  repairScenario 2 (Q - 10) 5 5 = Ok (Some (16 - Q)) /\
  (16 - Q) mod Q <> (Q - 4) mod Q.
Proof.
  split; [vm_compute; reflexivity|].
  split; [vm_compute; reflexivity|].
  split; [vm_compute; reflexivity|].
  split; [vm_compute; reflexivity|].
  vm_compute. discriminate.
Qed.

(** ** Tweaks *)

Lemma multiply_G_2 : multiply G 2 = Ok G2.
Proof. vm_compute. reflexivity. Qed.

(** C4.  For the public key [2 * G] and the tweaks 7 and 3 the first
    tweaked key has an odd y and the second an even one, and the aggregate
    tweak returned is the negative number -4, outside [0, Q). *)
Theorem ComputeTweaks_negative_tweak :
  Aggregator.ComputeTweaks 7 3 G2 = Ok (tweakedG2, -4, 1) /\ ~ (0 <= -4 < Q).
Proof.
  split; [vm_compute; reflexivity | lia].
Qed.

(** ** Signature assembly *)

Lemma tweakedSession_constructed :
  Aggregator.newAggregator G2 fnord [(G, G2)] [1] (Some 7) (Some 3)
  = Ok tweakedSession.
Proof. vm_compute. reflexivity. Qed.

Lemma tweakedSession_groupCommitment :
  Aggregator.groupCommitment fnord [(G, G2)] [1] = Ok tweakedSessionCommitment.
Proof. vm_cast_no_check (eq_refl (Ok tweakedSessionCommitment)). Qed.

Lemma tweakedSession_challenge :
  Aggregator.challengeHash tweakedSessionCommitment tweakedG2 fnord
  = Ok tweakedSessionChallenge.
Proof. vm_compute. reflexivity. Qed.

(** C5.  The session built by the constructor for the key [2 * G], the
    nonce commitments [(G, 2 * G)] and the tweaks 7 and 3 holds the tweak
    -4.  For the share list [[1]] the sum [1 + c * (-4)] is negative, its
    hexadecimal form starts with a minus sign, and the last 32 bytes of the
    signature are zero instead of the big-endian bytes of
    [(1 + c * (-4)) mod Q]. *)
Theorem signature_negative_tweak :
  exists sig : list byte,
    Aggregator.signature tweakedSession [1] = Ok sig /\
    length sig = 64%nat /\
    skipn 32 sig = repeat x00 32 /\
    skipn 32 sig <> be_bytes 32 ((1 + tweakedSessionChallenge * (-4)) mod Q).
Proof.
  unfold Aggregator.signature, tweakedSession.
  cbn [Aggregator.message Aggregator.nonceCommitmentPairs
       Aggregator.participantIndexes Aggregator.tweak Aggregator.tweakedKey].
  rewrite tweakedSession_groupCommitment. cbn [bind].
  rewrite tweakedSession_challenge. cbn [bind].
  eexists. split; [vm_compute; reflexivity|].
  split; [reflexivity|].
  split; [reflexivity|].
  vm_compute. discriminate.
Qed.

(** ** Binding values *)

Lemma secSerialize_affine (p : Point) : affine p -> secSerialize p = Ok (SEC1 p).
Proof.
  unfold affine, isInfinity, SEC1, secSerialize.
  destruct (px p), (py p); intros H; try discriminate; reflexivity.
Qed.

Lemma getIndex_nth {A : Type} (l : list A) (i : nat) (d : A) :
  (i < length l)%nat -> getIndex l i = Ok (nth i l d).
Proof.
  intros H. unfold getIndex.
  destruct (nth_error l i) eqn:E.
  - f_equal. symmetry. apply nth_error_nth. assumption.
  - apply nth_error_None in E. lia.
Qed.

Lemma indexInRange_true pairs idx :
  inRange pairs idx -> Aggregator.indexInRange idx pairs = true.
Proof.
  unfold inRange, Aggregator.indexInRange. intros H.
  destruct (Z.ltb_spec idx 1), (Z.gtb_spec idx (Z.of_nat (length pairs)));
    try reflexivity; lia.
Qed.

Lemma indexInRange_false pairs idx :
  ~ inRange pairs idx -> Aggregator.indexInRange idx pairs = false.
Proof.
  unfold inRange, Aggregator.indexInRange. intros H.
  destruct (Z.ltb_spec idx 1), (Z.gtb_spec idx (Z.of_nat (length pairs)));
    try reflexivity; lia.
Qed.

Lemma bindingValue_item pairs idx :
  inRange pairs idx -> pairSerializable pairs idx ->
  (if Aggregator.indexInRange idx pairs
   then participantPair <- getIndex pairs (Z.to_nat (idx - 1)) ;;
        Aggregator.pairBytes participantPair
   else Err IndexOutOfRange)
  = Ok (SEC1 (fst (pairAt pairs idx)) ++ SEC1 (snd (pairAt pairs idx))).
Proof.
  intros Hr Hs. destruct (Hs Hr) as [H1 H2].
  rewrite indexInRange_true by assumption.
  rewrite (getIndex_nth _ _ (infinity, infinity)) by (unfold inRange in Hr; lia).
  cbn [bind]. fold (pairAt pairs idx).
  unfold Aggregator.pairBytes.
  rewrite (secSerialize_affine _ H1), (secSerialize_affine _ H2). reflexivity.
Qed.

Lemma bindingValue_items_Ok pairs indexes :
  Forall (inRange pairs) indexes -> Forall (pairSerializable pairs) indexes ->
  mapM (fun idx =>
          if Aggregator.indexInRange idx pairs
          then participantPair <- getIndex pairs (Z.to_nat (idx - 1)) ;;
               Aggregator.pairBytes participantPair
          else Err IndexOutOfRange) indexes
  = Ok (map (fun idx => SEC1 (fst (pairAt pairs idx)) ++ SEC1 (snd (pairAt pairs idx)))
            indexes).
Proof.
  intros Hr Hs. apply mapM_ext_Ok.
  rewrite Forall_forall in *. intros idx Hin.
  apply bindingValue_item; auto.
Qed.

Lemma bindingValue_items_Err pairs indexes :
  Forall (pairSerializable pairs) indexes -> Exists (fun idx => ~ inRange pairs idx) indexes ->
  mapM (fun idx =>
          if Aggregator.indexInRange idx pairs
          then participantPair <- getIndex pairs (Z.to_nat (idx - 1)) ;;
               Aggregator.pairBytes participantPair
          else Err IndexOutOfRange) indexes
  = Err IndexOutOfRange.
Proof.
  intros Hs. induction 1 as [idx l Hbad | idx l Hex IH].
  - cbn [mapM]. rewrite indexInRange_false by assumption. reflexivity.
  - inversion Hs as [|? ? Hs1 Hs2]; subst.
    cbn [mapM]. destruct (Aggregator.indexInRange idx pairs) eqn:E.
    + assert (Hr : inRange pairs idx).
      { unfold Aggregator.indexInRange in E. unfold inRange.
        destruct (Z.ltb_spec idx 1), (Z.gtb_spec idx (Z.of_nat (length pairs)));
          try discriminate; lia. }
      pose proof (bindingValue_item pairs idx Hr Hs1) as Hi.
      rewrite E in Hi. rewrite Hi. cbn [bind]. rewrite (IH Hs2). reflexivity.
    + reflexivity.
Qed.

Lemma mapM_app_Err {A B : Type} (f : A -> result B) (pre post : list A) (a : A)
    (bs : list B) (e : Error) :
  mapM f pre = Ok bs -> f a = Err e -> mapM f (pre ++ a :: post) = Err e.
Proof.
  revert bs. induction pre as [|x pre IH]; intros bs Hpre Ha; cbn [mapM app].
  - rewrite Ha. reflexivity.
  - cbn [mapM] in Hpre. destruct (f x) as [b|e']; [|discriminate].
    cbn [bind] in *. destruct (mapM f pre) as [bs'|e'] eqn:E; [|discriminate].
    rewrite (IH bs' eq_refl Ha). reflexivity.
Qed.

Lemma secSerialize_infinity (p : Point) :
  ~ affine p -> secSerialize p = Err SerializeInfinity.
Proof.
  unfold affine, isInfinity, secSerialize.
  destruct (px p), (py p); intros H; try reflexivity. contradiction H. reflexivity.
Qed.

Lemma affine_dec (p : Point) : affine p \/ ~ affine p.
Proof. unfold affine. destruct (isInfinity p); [right; discriminate | left; reflexivity]. Qed.

Lemma bindingValue_item_infinity pairs idx :
  inRange pairs idx -> ~ pairAffine pairs idx ->
  (if Aggregator.indexInRange idx pairs
   then participantPair <- getIndex pairs (Z.to_nat (idx - 1)) ;;
        Aggregator.pairBytes participantPair
   else Err IndexOutOfRange)
  = Err SerializeInfinity.
Proof.
  intros Hr Hs.
  rewrite indexInRange_true by assumption.
  rewrite (getIndex_nth _ _ (infinity, infinity)) by (unfold inRange in Hr; lia).
  cbn [bind]. fold (pairAt pairs idx).
  unfold Aggregator.pairBytes.
  destruct (affine_dec (fst (pairAt pairs idx))) as [H1|H1].
  - rewrite (secSerialize_affine _ H1). cbn [bind].
    rewrite secSerialize_infinity; [reflexivity|].
    intros H2. apply Hs. split; assumption.
  - rewrite (secSerialize_infinity _ H1). reflexivity.
Qed.

Lemma usable_split pairs l :
  Forall (usable pairs) l ->
  Forall (inRange pairs) l /\ Forall (pairSerializable pairs) l.
Proof.
  intros H. split; eapply Forall_impl; try exact H.
  - intros a [Hr _]. exact Hr.
  - intros a [_ Ha] _. exact Ha.
Qed.

(** C8 (amended).  A first argument below 1 is rejected with "must start
    from 1", and a first argument above 255 with the range error of
    [writeUInt8].  For a first argument in 1..255, also one above the number
    n of pairs, the index list is read in its order: when every entry is
    within 1..n and names a pair of affine points, the result is the SHA-256
    digest of [i_byte || m || SEC1(D_j) || SEC1(E_j) ...] reduced mod Q; when
    the first entry that is not so lies outside 1..n, the call fails with
    the index-out-of-range error; when it lies within 1..n and names a pair
    with a point at infinity, the call fails with the serialization
    error. *)
Theorem bindingValue_spec (index : Z) (message : list byte)
    (pairs : list (Point * Point)) (indexes : list Z) :
  (index < 1 ->
   Aggregator.bindingValue index message pairs indexes = Err IndexMustStartFromOne) /\
  (255 < index ->
   Aggregator.bindingValue index message pairs indexes = Err UInt8OutOfRange) /\
  (1 <= index <= 255 ->
   (Forall (usable pairs) indexes ->
    Aggregator.bindingValue index message pairs indexes
    = Ok (bytes_to_Z (sha256 ([byte_of_Z index] ++ message ++ pairsBytes pairs indexes))
          mod Q)) /\
   (forall (pre : list Z) (j : Z) (post : list Z),
      indexes = pre ++ j :: post -> Forall (usable pairs) pre ->
      ~ inRange pairs j ->
      Aggregator.bindingValue index message pairs indexes = Err IndexOutOfRange) /\
   (forall (pre : list Z) (j : Z) (post : list Z),
      indexes = pre ++ j :: post -> Forall (usable pairs) pre ->
      inRange pairs j -> ~ pairAffine pairs j ->
      Aggregator.bindingValue index message pairs indexes = Err SerializeInfinity)).
Proof.
  unfold Aggregator.bindingValue, writeUInt8.
  split; [|split].
  - intros H. destruct (Z.ltb_spec index 1); [reflexivity | lia].
  - intros H. destruct (Z.ltb_spec index 1); [lia|].
    destruct (Z.leb_spec 0 index), (Z.leb_spec index 255); try lia.
    reflexivity.
  - intros H.
    destruct (Z.ltb_spec index 1); [lia|].
    destruct (Z.leb_spec 0 index), (Z.leb_spec index 255); try lia.
    cbn [andb bind].
    split; [|split].
    + intros Hu. destruct (usable_split _ _ Hu) as [Hr Hs].
      rewrite bindingValue_items_Ok by assumption. cbn [bind].
      rewrite rem_nonneg; [|apply bytes_to_Z_range | apply Q_pos].
      unfold pairsBytes. rewrite flat_map_concat_map. reflexivity.
    + intros pre j post -> Hu Hj.
      destruct (usable_split _ _ Hu) as [Hr Hs].
      erewrite mapM_app_Err;
        [reflexivity | apply bindingValue_items_Ok; assumption |].
      apply indexInRange_false in Hj. rewrite Hj. reflexivity.
    + intros pre j post -> Hu Hj Ha.
      destruct (usable_split _ _ Hu) as [Hr Hs].
      erewrite mapM_app_Err;
        [reflexivity | apply bindingValue_items_Ok; assumption |].
      apply bindingValue_item_infinity; assumption.
Qed.

Lemma bindingValue_spec_witness :
  Aggregator.bindingValue 1 fnord [(G, G2)] [1]
  = Ok (bytes_to_Z (sha256 ([byte_of_Z 1] ++ fnord ++ pairsBytes [(G, G2)] [1])) mod Q)
  /\ Aggregator.bindingValue 0 fnord [(G, G2)] [1] = Err IndexMustStartFromOne
  /\ Aggregator.bindingValue 256 fnord [(G, G2)] [1] = Err UInt8OutOfRange
  /\ Aggregator.bindingValue 1 fnord [(G, G2)] [1; 2] = Err IndexOutOfRange
  /\ Aggregator.bindingValue 1 fnord [(G, infinity)] [1] = Err SerializeInfinity.
Proof.
  assert (U : usable [(G, G2)] 1).
  { split; [unfold inRange; simpl; lia | split; reflexivity]. }
  split; [|split; [|split; [|split]]].
  - apply (proj1 (proj2 (proj2 (bindingValue_spec 1 fnord [(G, G2)] [1])) ltac:(lia))).
    constructor; [exact U | constructor].
  - apply (proj1 (bindingValue_spec 0 fnord [(G, G2)] [1])). lia.
  - apply (proj1 (proj2 (bindingValue_spec 256 fnord [(G, G2)] [1]))). lia.
  - apply (proj1 (proj2 (proj2 (proj2 (bindingValue_spec 1 fnord [(G, G2)] [1; 2]))
                           ltac:(lia))) [1] 2 []).
    + reflexivity.
    + constructor; [exact U | constructor].
    + unfold inRange; simpl; lia.
  - apply (proj2 (proj2 (proj2 (proj2 (bindingValue_spec 1 fnord [(G, infinity)] [1]))
                           ltac:(lia))) [] 1 []).
    + reflexivity.
    + constructor.
    + unfold inRange; simpl; lia.
    + intros [_ H]. discriminate H.
Defined.

(** C8 (counterexample).  With one nonce commitment pair the first argument
    2 is greater than the number of pairs, and the call returns a value. *)
Lemma bindingValue_accepts_large_first_argument :
  exists v : Z, Aggregator.bindingValue 2 [] [(G, G)] [1] = Ok v.
Proof. eexists. vm_compute. reflexivity. Qed.

(** ** Lagrange coefficients *)

Lemma lagrangeProducts_acc (S : list Z) (x i n d : Z) :
  fold_left (fun nd index =>
               if index =? i then nd
               else (fst nd * (x - index), snd nd * (i - index)))
            S (n, d)
  = (n * lagrangeNumerator S x i, d * lagrangeDenominator S i).
Proof.
  unfold lagrangeNumerator, lagrangeDenominator, others.
  revert n d. induction S as [|j S IH]; intros n d; cbn [fold_left filter].
  - cbn. rewrite !Z.mul_1_r. reflexivity.
  - destruct (Z.eqb_spec j i) as [->|Hne]; cbn [negb].
    + apply IH.
    + rewrite IH. unfold product. cbn [fst snd map fold_right]. f_equal; ring.
Qed.

Lemma lagrangeProducts_spec (S : list Z) (x i : Z) :
  Participant.lagrangeProducts S x i
  = (lagrangeNumerator S x i, lagrangeDenominator S i).
Proof.
  unfold Participant.lagrangeProducts. rewrite lagrangeProducts_acc.
  f_equal; ring.
Qed.

Lemma fermat_inverse (d : Z) : d mod Q <> 0 -> (d ^ (Q - 2) * d) mod Q = 1.
Proof.
  intros Hd. replace (d ^ (Q - 2) * d) with (d ^ (Q - 1)).
  - apply Z.fermat_nz; [exact Q_prime | assumption].
  - replace (Q - 1) with (Z.succ (Q - 2)) by lia.
    rewrite Z.pow_succ_r by (vm_compute; discriminate). ring.
Qed.

(** The sign of a remainder of [%]. *)
Lemma rem_sgn_abs (a m : Z) : 0 < m -> Z.rem a m = Z.sgn a * (Z.abs a mod m).
Proof.
  intros Hm. destruct (Z.lt_trichotomy a 0) as [Ha|[->|Ha]].
  - rewrite Z.sgn_neg, Z.abs_neq by lia.
    rewrite <- (Z.opp_involutive a) at 1.
    rewrite Z.rem_opp_l by lia. rewrite rem_nonneg by lia. ring.
  - reflexivity.
  - rewrite Z.sgn_pos, Z.abs_eq by lia. rewrite rem_nonneg by lia. ring.
Qed.

Lemma rem_signed (s y : Z) :
  0 <= y -> s = 1 \/ s = 0 \/ s = -1 -> Z.rem (s * y) Q = s * (y mod Q).
Proof.
  intros Hy [-> | [-> | ->]].
  - rewrite Z.mul_1_l, rem_nonneg by (try reflexivity; assumption). ring.
  - reflexivity.
  - replace (-1 * y) with (- y) by ring.
    rewrite Z.rem_opp_l, rem_nonneg by (try reflexivity; try assumption; discriminate).
    ring.
Qed.

Lemma pow_loop_opp_result (e : positive) (r b m : Z) :
  m <> 0 -> pow_loop e (- r) b m = - pow_loop e r b m.
Proof.
  intros Hm. revert r b. induction e as [e IH|e IH|]; intros r b; cbn [pow_loop].
  - rewrite Z.mul_opp_l, Z.rem_opp_l by assumption. apply IH.
  - apply IH.
  - rewrite Z.mul_opp_l, Z.rem_opp_l by assumption. reflexivity.
Qed.

(** An odd power of a negative base is the opposite of the power of its
    absolute value. *)
Lemma pow_opp_odd (b m : Z) (e : positive) :
  m <> 0 -> pow (- b) (Zpos e~1) m = - pow b (Zpos e~1) m.
Proof.
  intros Hm. unfold pow. destruct (m =? 1); [reflexivity|].
  cbn [pow_loop].
  rewrite Z.rem_opp_l by assumption.
  rewrite !Z.mul_1_l, Z.mul_opp_opp, Z.rem_opp_l by assumption.
  apply pow_loop_opp_result. assumption.
Qed.

Lemma Q_minus_2_odd : exists e : positive, Q - 2 = Zpos e~1.
Proof. eexists. vm_compute. reflexivity. Qed.

Lemma pow_inverse_sgn (d : Z) :
  pow d (Q - 2) Q = Z.sgn d * (Z.abs d ^ (Q - 2) mod Q).
Proof.
  destruct (Z.lt_trichotomy d 0) as [Hd|[->|Hd]].
  - rewrite Z.sgn_neg, Z.abs_neq by lia.
    destruct Q_minus_2_odd as [e He].
    rewrite <- (Z.opp_involutive d) at 1. rewrite He.
    rewrite pow_opp_odd by discriminate. rewrite <- He.
    rewrite pow_spec by (try reflexivity; try lia; vm_compute; discriminate).
    ring.
  - rewrite pow_spec by (try reflexivity; try lia; vm_compute; discriminate).
    rewrite Z.pow_0_l by reflexivity. reflexivity.
  - rewrite Z.sgn_pos, Z.abs_eq by lia.
    rewrite pow_spec by (try reflexivity; try lia; vm_compute; discriminate).
    ring.
Qed.

(** C3 (amended).  For pairwise-distinct indexes, with N the product of the
    [x - j] and D the product of the [i - j] over the [j] of the list other
    than [i], the coefficient returned is the integer
    [sgn(N D) * ((|N| * (|D|^(Q-2) mod Q)) mod Q)]: it lies strictly between
    -Q and Q, is non-negative when [N D >= 0] and non-positive when
    [N D <= 0] (it is not reduced to [0, Q)), is congruent mod Q to
    [N * D^(Q-2)], and multiplied by D it is congruent to N whenever Q does
    not divide D.  A list with a duplicate index is rejected. *)
Theorem lagrangeCoefficient_spec (S : list Z) (x i : Z) :
  let N := lagrangeNumerator S x i in
  let D := lagrangeDenominator S i in
  let r := Z.sgn (N * D) * ((Z.abs N * (Z.abs D ^ (Q - 2) mod Q)) mod Q) in
  (NoDup S ->
   Participant._lagrangeCoefficient S x i = Ok r /\
   - Q < r < Q /\
   (0 <= N * D -> 0 <= r) /\ (N * D <= 0 -> r <= 0) /\
   r mod Q = (N * D ^ (Q - 2)) mod Q /\
   (D mod Q <> 0 -> (r * D) mod Q = N mod Q)) /\
  (~ NoDup S -> Participant._lagrangeCoefficient S x i = Err IndexesNotUnique).
Proof.
  intros N D r.
  unfold Participant._lagrangeCoefficient. rewrite lagrangeProducts_spec.
  fold N D. clearbody N D. split.
  - intros Hnd. apply hasDuplicate_false in Hnd. rewrite Hnd.
    assert (Hr : Z.rem (N * pow D (Q - 2) Q) Q = r).
    { rewrite pow_inverse_sgn. unfold r.
      set (w := Z.abs D ^ (Q - 2) mod Q).
      assert (Hw : 0 <= w) by (apply Z.mod_pos_bound; reflexivity).
      replace (N * (Z.sgn D * w)) with (Z.sgn (N * D) * (Z.abs N * w)).
      - apply rem_signed; [apply Z.mul_nonneg_nonneg; [apply Z.abs_nonneg | exact Hw]|].
        destruct (Z.sgn_spec (N * D)) as [[_ E]|[[_ E]|[_ E]]]; rewrite E; auto.
      - rewrite Z.sgn_mul.
        destruct (Z.lt_trichotomy N 0) as [H|[H|H]].
        + rewrite (Z.sgn_neg N), (Z.abs_neq N) by lia. ring.
        + rewrite H. cbn [Z.sgn Z.abs]. ring.
        + rewrite (Z.sgn_pos N), (Z.abs_eq N) by lia. ring. }
    rewrite Hr. split; [reflexivity|].
    assert (Hc : r mod Q = (N * D ^ (Q - 2)) mod Q).
    { rewrite <- Hr, rem_mod by apply Q_pos.
      rewrite Zmult_mod, pow_mod, <- Zmult_mod by (vm_compute; try reflexivity; discriminate).
      reflexivity. }
    assert (Hm : 0 <= (Z.abs N * (Z.abs D ^ (Q - 2) mod Q)) mod Q < Q)
      by (apply Z.mod_pos_bound; reflexivity).
    split; [rewrite <- Hr; apply rem_range, Q_pos|].
    split; [intros; unfold r; nia|].
    split; [intros; unfold r; nia|].
    split; [exact Hc|].
    intros HD. rewrite Zmult_mod, Hc, <- Zmult_mod.
    rewrite <- Z.mul_assoc, Zmult_mod, fermat_inverse by assumption.
    rewrite Z.mul_1_r, Z.mod_mod by (vm_compute; discriminate). reflexivity.
  - intros Hnd. destruct (Participant.hasDuplicate S) eqn:E; [reflexivity|].
    apply hasDuplicate_false in E. contradiction.
Qed.

Lemma lagrangeCoefficient_spec_witness :
  let N := lagrangeNumerator [1; 2] 0 2 in
  let D := lagrangeDenominator [1; 2] 2 in
  let r := Z.sgn (N * D) * ((Z.abs N * (Z.abs D ^ (Q - 2) mod Q)) mod Q) in
  Participant._lagrangeCoefficient [1; 2] 0 2 = Ok r /\
  - Q < r < Q /\
  (0 <= N * D -> 0 <= r) /\ (N * D <= 0 -> r <= 0) /\
  r mod Q = (N * D ^ (Q - 2)) mod Q /\
  (D mod Q <> 0 -> (r * D) mod Q = N mod Q).
Proof.
  apply (proj1 (lagrangeCoefficient_spec [1; 2] 0 2)).
  repeat constructor; simpl; intuition lia.
Defined.

(** C3 (counterexample).  For the indexes [[1; 2]], [x = 0] and [i = 2] the
    coefficient returned is -1, outside [0, Q). *)
Lemma lagrangeCoefficient_negative :
  Participant._lagrangeCoefficient [1; 2] 0 2 = Ok (-1) /\ ~ (0 <= -1 < Q).
Proof. split; [vm_compute; reflexivity | lia]. Qed.

(** ** SEC1 deserialization *)

Lemma P_gt_1 : 1 < P.
Proof. reflexivity. Qed.

Lemma prime_divide_pow (p a : Z) (n : nat) :
  Z.prime p -> (p | a ^ Z.of_nat n) -> (p | a).
Proof.
  intros Hp. induction n as [|n IH].
  - cbn. intros Hd. apply Z.divide_1_r in Hd.
    pose proof (Z.prime_ge_2 p Hp). lia.
  - rewrite Nat2Z.inj_succ, Z.pow_succ_r by lia. intros Hd.
    apply Z.divide_prime_mul in Hd; tauto.
Qed.

(** -7 is not a cube modulo P: no point of the curve has y = 0. *)
Lemma curve_rhs_nonzero (x : Z) : (x ^ 3 + 7) mod P <> 0.
Proof.
  intros H.
  assert (Hx : x mod P <> 0).
  { intros Hx. revert H.
    rewrite Zplus_mod, <- Z.mod_pow_l, Hx.
    vm_compute. discriminate. }
  pose proof (Z.fermat_nz P x P_prime Hx) as Hf.
  assert (Hc : (x ^ 3) mod P = (P - 7) mod P).
  { replace (x ^ 3) with ((x ^ 3 + 7) + (-1) * 7) by ring.
    rewrite Zplus_mod, H, Z.add_0_l, Z.mod_mod by (vm_compute; discriminate).
    replace (P - 7) with (-1 * 7 + 1 * P) by ring.
    rewrite Z.mod_add by (vm_compute; discriminate). reflexivity. }
  set (k := (P - 1) / 3).
  assert (Hk : P - 1 = 3 * k) by (vm_compute; reflexivity).
  assert (Hk0 : 0 <= k) by (vm_compute; discriminate).
  rewrite Hk, Z.pow_mul_r, <- Z.mod_pow_l, Hc, Z.mod_pow_l in Hf by lia.
  rewrite <- pow_spec in Hf by (try assumption; vm_compute; try reflexivity; discriminate).
  revert Hf. vm_compute. discriminate.
Qed.

Lemma P_odd (y : Z) : 0 < y < P -> (P - y) mod 2 = 1 - y mod 2.
Proof.
  intros Hy. replace (P - y) with (P + (-1) * y) by ring.
  rewrite Zplus_mod, Zmult_mod.
  change (P mod 2) with 1. change (-1 mod 2) with 1.
  pose proof (Z.mod_pos_bound y 2 ltac:(lia)).
  assert (y mod 2 = 0 \/ y mod 2 = 1) as [->| ->] by lia; reflexivity.
Qed.

(** C7 (amended).  [secDeserialize] fails exactly when the hexadecimal
    string does not decode to 33 bytes; the first byte is not validated.  On
    33 bytes it parses x from the last 32 big-endian bytes, takes
    y = (x^3 + 7 mod P)^((P+1)/4) mod P, and returns x with y or P - y,
    whichever is even when the first byte is 0x02 and odd for every other
    first byte. *)
Theorem secDeserialize_spec (hexPublicKey : string) :
  let hexBytes := hexDecode (list_ascii_of_string hexPublicKey) in
  (length hexBytes <> 33%nat -> secDeserialize hexPublicKey = Err InvalidHexInput) /\
  (length hexBytes = 33%nat ->
   let x := bytes_to_Z (tl hexBytes) in
   let y := ((x ^ 3 + 7) mod P) ^ ((P + 1) / 4) mod P in
   exists y' : Z,
     secDeserialize hexPublicKey = Ok (mkPoint (Some x) (Some y')) /\
     (y' = y \/ y' = P - y) /\ 0 < y' < P /\
     y' mod 2 = if Z_of_byte (hd x00 hexBytes) =? 2 then 0 else 1).
Proof.
  unfold secDeserialize.
  destruct (hexDecode (list_ascii_of_string hexPublicKey)) as [|prefix xBytes] eqn:E;
    cbv zeta.
  - split; [reflexivity | discriminate].
  - split.
    + intros Hl. apply Nat.eqb_neq in Hl. rewrite Hl. reflexivity.
    + intros Hl. rewrite Hl. cbn [Nat.eqb negb tl hd].
      set (x := bytes_to_Z xBytes).
      assert (Hx : 0 <= x) by apply bytes_to_Z_range.
      assert (Hs : Z.rem (x ^ 3 + 7) P = (x ^ 3 + 7) mod P).
      { apply rem_nonneg; [|reflexivity].
        assert (0 <= x ^ 3) by (apply Z.pow_nonneg; assumption). lia. }
      rewrite Hs.
      assert (He : Z.quot (P + 1) 4 = (P + 1) / 4) by (vm_compute; reflexivity).
      rewrite He. unfold modPow.
      pose proof (Z.mod_pos_bound (x ^ 3 + 7) P ltac:(reflexivity)) as Hb.
      rewrite pow_spec by (try lia; try reflexivity; vm_compute; discriminate).
      set (y := ((x ^ 3 + 7) mod P) ^ ((P + 1) / 4) mod P).
      assert (Hy : 0 < y < P).
      { pose proof (Z.mod_pos_bound (((x ^ 3 + 7) mod P) ^ ((P + 1) / 4)) P
                      ltac:(reflexivity)) as Hyb. fold y in Hyb.
        enough (y <> 0) by lia. intros Hy0.
        apply (curve_rhs_nonzero x).
        apply Z.mod_divide in Hy0; [|vm_compute; discriminate].
        replace ((P + 1) / 4) with (Z.of_nat (Z.to_nat ((P + 1) / 4))) in Hy0
          by (apply Z2Nat.id; vm_compute; discriminate).
        apply prime_divide_pow in Hy0; [|exact P_prime].
        apply Z.mod_divide in Hy0; [|vm_compute; discriminate].
        rewrite Z.mod_mod in Hy0 by (vm_compute; discriminate). assumption. }
      assert (Hr : Z.rem (P - y) P = P - y).
      { rewrite rem_nonneg by (try reflexivity; lia). apply Z.mod_small. lia. }
      assert (Hy2 : Z.rem y 2 = y mod 2) by (apply rem_nonneg; lia).
      rewrite Hr, Hy2.
      pose proof (P_odd y Hy) as Ho.
      pose proof (Z.mod_pos_bound y 2 ltac:(lia)) as Hp.
      destruct (Z.eqb_spec (y mod 2) 0) as [Hev|Hod];
        destruct (Z_of_byte prefix =? 2); eexists; (split; [reflexivity|]);
        repeat split; try lia; auto.
Qed.

Lemma secDeserialize_spec_witness :
  let hexBytes :=
    hexDecode (list_ascii_of_string
      "0279BE667EF9DCBBAC55A06295CE870B07029BFCDB2DCE28D959F2815B16F81798") in
  let x := bytes_to_Z (tl hexBytes) in
  let y := ((x ^ 3 + 7) mod P) ^ ((P + 1) / 4) mod P in
  exists y' : Z,
    secDeserialize "0279BE667EF9DCBBAC55A06295CE870B07029BFCDB2DCE28D959F2815B16F81798"
    = Ok (mkPoint (Some x) (Some y')) /\
    (y' = y \/ y' = P - y) /\ 0 < y' < P /\
    y' mod 2 = if Z_of_byte (hd x00 hexBytes) =? 2 then 0 else 1.
Proof.
  apply (proj2 (secDeserialize_spec
    "0279BE667EF9DCBBAC55A06295CE870B07029BFCDB2DCE28D959F2815B16F81798")).
  vm_compute. reflexivity.
Defined.

(** C7 (counterexample).  A 33-byte input with the prefix 0x04 is not
    rejected. *)
Lemma secDeserialize_accepts_prefix_04 :
  exists p : Point,
    secDeserialize "0479BE667EF9DCBBAC55A06295CE870B07029BFCDB2DCE28D959F2815B16F81798"
    = Ok p.
Proof. eexists. vm_compute. reflexivity. Qed.
